(** * The bookstore queries of [queries.js], over a model of the document store

  [queries.js] is a thin client: every function builds a filter, an update
  or a pipeline object and hands it to one call of the store's driver
  ([insertOne], [findOne], [updateOne], [deleteOne], [find], [aggregate],
  [createIndex], [indexes]).
  The file below has two layers.

  - [Bson] and [Store]: the documents and the fragment of the store's
    query language that the script uses (equality and range filters,
    [$set], sort specifications, the stages [$project], [$group], [$sort]
    with [$subtract], [$mod], [$avg], [$sum], [$first]).
  - [Queries]: the functions of [queries.js], each one written with the
    very filter, update or pipeline object of the source.

  Every function of the script obtains the collection and awaits one call.
  Here the collection is passed in, and a function that writes returns the
  collection it leaves behind next to its result; a call that the store
  refuses returns [Err]. The [console.log] lines are not modelled, and
  the collection has no schema validator.

  A collection is the list of its documents in natural (insertion) order.
  A read that no index serves returns its documents in that order; a read
  by one field that an index serves ([find({genre})] once the script has
  created its index on genre and year) returns them in the order of the
  index. Where the store promises no order (ties of a sort, the groups of
  [$group], the choice among several indexes) the model takes the order a
  merge sort leaves, the order of first appearance and the oldest index;
  the theorems below state what holds for every such order.

  The documents of the model hold scalar values: numbers, strings,
  booleans, object ids and [null]. Arrays and embedded documents, which
  the script never writes, are not represented.

  A number is the rational that a double denotes. Comparisons are the
  store's. [$avg] rounds as the store does: the sum to the nearest double
  (a significand of 53 bits, ties to even), then the quotient. The store
  keeps its running sum in twice the precision of a double, which the
  model takes as exact. [$subtract],
  [$mod] and [$sum] are exact, as they are in doubles on the years and on
  the literal 1 that the script applies them to. Infinities, NaN and
  subnormal numbers are not represented, so a theorem on averages assumes
  prices whose sums stay in the range of normal doubles.

  The catalogue of indexes holds plain indexes: a key pattern, the default
  options and the name the store derives from the key pattern, which is
  all the script creates. Unique, partial or otherwise optioned indexes
  and indexes with a name of the caller's are not represented. *)

From Stdlib Require Import QArith Qcanon Qround Qabs Qpower Lqa.
From Stdlib Require Qcabs.
From stdpp Require Import base numbers strings list gmap sorting.

Local Open Scope Z_scope.

(** ** BSON values and documents *)

Module Bson.

Inductive value :=
| VNull
| VNum (q : Qc)
| VStr (s : string)
| VOid (n : N)
| VBool (b : bool).

#[global] Instance value_eq_dec : EqDecision value.
Proof. solve_decision. Defined.

(** A document maps field names to values; [_id] is a field like any
    other. *)
Abbreviation doc := (gmap string value).

(** A field that is missing reads as [null] in filters, sort keys and
    group keys. *)
Definition field (f : string) (d : doc) : value := default VNull (d !! f).

(** The store's comparison order puts the types in brackets:
    null < numbers < strings < object ids < booleans. *)
Definition type_rank (v : value) : N :=
  match v with
  | VNull => 2
  | VNum _ => 3
  | VStr _ => 4
  | VOid _ => 8
  | VBool _ => 9
  end%N.

Definition value_compare (a b : value) : comparison :=
  match a, b with
  | VNull, VNull => Eq
  | VNum x, VNum y => Qccompare x y
  | VStr x, VStr y => String.compare x y
  | VOid x, VOid y => N.compare x y
  | VBool x, VBool y => Bool.compare x y
  | _, _ => N.compare (type_rank a) (type_rank b)
  end.

Definition num_of_Z (z : Z) : value := VNum (Qc_of_Z z).

(** The type of a field that may be missing. *)
Definition is_str (x : option value) : bool :=
  match x with Some (VStr _) => true | _ => false end.

Definition is_num (x : option value) : bool :=
  match x with Some (VNum _) => true | _ => false end.

Definition is_int (x : option value) : bool :=
  match x with
  | Some (VNum q) => bool_decide (Qden q = 1%positive)
  | _ => false
  end.

Definition is_bool (x : option value) : bool :=
  match x with Some (VBool _) => true | _ => false end.

(** *** Doubles *)

(** The integer nearest to [q]; halfway between two, the even one. *)
Definition round_even (q : Q) : Z :=
  let f := Qfloor q in
  match (q - inject_Z f ?= 1 # 2)%Q with
  | Lt => f
  | Gt => f + 1
  | Eq => if Z.even f then f else f + 1
  end.

(** For [q > 0], the exponent [e] with [2^e <= q < 2^(e+1)]. *)
Definition ilog2 (q : Q) : Z :=
  let e := Z.log2 (Qnum q) - Z.log2 (Zpos (Qden q)) in
  if Qle_bool (2 ^ e) q then e else e - 1.

(** The number with a significand of 53 bits that is nearest to [q]. *)
Definition round53 (q : Q) : Q :=
  if Qeq_bool q 0 then 0%Q
  else let s := 52 - ilog2 (Qabs q) in
       (inject_Z (round_even (q * 2 ^ s)) * 2 ^ (- s))%Q.

(** The result of an operation on doubles: the double nearest to the
    exact result. *)
Definition double (q : Qc) : Qc := Q2Qc (round53 q).

(** Rounding toward zero, the quotient of [fmod]. *)
Definition Qtrunc (x : Q) : Z :=
  if Qle_bool 0%Q x then Qfloor x else Qceiling x.

(** [$mod]: the remainder has the sign of the dividend. *)
Definition num_mod (a b : Qc) : Qc :=
  (a - b * Qc_of_Z (Qtrunc (a / b)%Qc))%Qc.

End Bson.

Import Bson.

(** ** The store *)

Module Store.

Abbreviation collection := (list doc).

Inductive error :=
| DuplicateKey (id : value)
| ImmutableField (f : string)
| TypeMismatch (op : string)
| ModByZero.

Inductive res (A : Type) :=
| Ok (a : A)
| Err (e : error).
Arguments Ok {A} a.
Arguments Err {A} e.

#[global] Instance res_ret : MRet res := fun _ a => Ok a.

#[global] Instance res_bind : MBind res := fun _ _ k m =>
  match m with
  | Ok a => k a
  | Err e => Err e
  end.

(** *** Filters *)

Inductive cmp_op := OpLt | OpLte | OpGt | OpGte.

(** What a filter object says about one field: [{f: v}] or
    [{f: {$op: v, ...}}]. *)
Inductive field_cond :=
| Equals (v : value)
| Ops (ops : list (cmp_op * value)).

Abbreviation filter_doc := (list (string * field_cond)).

Definition cmp_holds (op : cmp_op) (c : comparison) : bool :=
  match op, c with
  | OpLt, Lt => true
  | OpLte, (Lt | Eq) => true
  | OpGt, Gt => true
  | OpGte, (Gt | Eq) => true
  | _, _ => false
  end.

(** A range operator only matches values of the type bracket of its
    operand. *)
Definition op_matches (x : value) (o : cmp_op * value) : bool :=
  bool_decide (type_rank x = type_rank o.2)
  && cmp_holds o.1 (value_compare x o.2).

Definition cond_matches (x : value) (c : field_cond) : bool :=
  match c with
  | Equals v => bool_decide (x = v)
  | Ops ops => forallb (op_matches x) ops
  end.

Definition matches (q : filter_doc) (d : doc) : bool :=
  forallb (fun fc => cond_matches (field fc.1 d) fc.2) q.

(** *** Sort specifications *)

Inductive direction := Asc | Desc.

Abbreviation sort_spec := (list (string * direction)).

Definition directed (dir : direction) (c : comparison) : comparison :=
  match dir with
  | Asc => c
  | Desc => CompOpp c
  end.

Fixpoint doc_compare (spec : sort_spec) (d1 d2 : doc) : comparison :=
  match spec with
  | [] => Eq
  | (f, dir) :: spec' =>
      match directed dir (value_compare (field f d1) (field f d2)) with
      | Eq => doc_compare spec' d1 d2
      | c => c
      end
  end.

Definition doc_le (spec : sort_spec) (d1 d2 : doc) : Prop :=
  doc_compare spec d1 d2 ≠ Gt.

#[global] Instance doc_le_dec spec : RelDecision (doc_le spec).
Proof. intros d1 d2. unfold doc_le. apply _. Defined.

Definition sort_docs (spec : sort_spec) (c : collection) : collection :=
  merge_sort (doc_le spec) c.

(** *** Cursors: [find(q)], [find(q).sort(spec)] *)

Definition find (q : filter_doc) (c : collection) : collection :=
  filter (fun d => matches q d) c.

Definition findOne (q : filter_doc) (c : collection) : option doc :=
  List.find (matches q) c.

(** *** [insertOne] *)

Record InsertOneResult := { acknowledged : bool; insertedId : value }.

Definition oid_of (d : doc) : N :=
  match d !! "_id" with
  | Some (VOid n) => n
  | _ => 0%N
  end.

(** The driver draws a new object id for a document that has none, or
    whose [_id] is [null]. The model takes the successor of the largest
    object id of the collection: all that the store promises is that the
    id is not in use. *)
Definition fresh_oid (c : collection) : value :=
  VOid (N.succ (foldr N.max 0%N (oid_of <$> c))).

Definition insertOne (d : doc) (c : collection)
  : res (InsertOneResult * collection) :=
  match d !! "_id" with
  | None | Some VNull =>
      let id := fresh_oid c in
      Ok ({| acknowledged := true; insertedId := id |},
          c ++ [<["_id" := id]> d])
  | Some id =>
      if existsb (fun d' => bool_decide (d' !! "_id" = Some id)) c
      then Err (DuplicateKey id)
      else Ok ({| acknowledged := true; insertedId := id |}, c ++ [d])
  end.

(** *** [updateOne] with a [$set] update *)

Record UpdateResult := { matchedCount : nat; modifiedCount : nat }.

Abbreviation set_doc := (list (string * value)).

Definition apply_set (u : set_doc) (d : doc) : doc :=
  foldl (fun m fv => <[fv.1 := fv.2]> m) d u.

(** The first matching document, in natural order, is rewritten in place;
    it counts as modified only if the update changed it. *)
Fixpoint updateOne (q : filter_doc) (u : set_doc) (c : collection)
  : res (UpdateResult * collection) :=
  match c with
  | [] => Ok ({| matchedCount := 0; modifiedCount := 0 |}, [])
  | d :: c' =>
      if matches q d then
        let d' := apply_set u d in
        if bool_decide (d' !! "_id" = d !! "_id") then
          Ok ({| matchedCount := 1;
                 modifiedCount := if bool_decide (d' = d) then 0 else 1 |},
              d' :: c')
        else Err (ImmutableField "_id")
      else
        '(r, c'') ← updateOne q u c'; Ok (r, d :: c'')
  end.

(** *** [deleteOne] *)

Record DeleteResult := { deletedCount : nat }.

Fixpoint deleteOne (q : filter_doc) (c : collection)
  : DeleteResult * collection :=
  match c with
  | [] => ({| deletedCount := 0 |}, [])
  | d :: c' =>
      if matches q d then ({| deletedCount := 1 |}, c')
      else let '(r, c'') := deleteOne q c' in (r, d :: c'')
  end.

(** *** Aggregation: expressions, accumulators, stages *)

(** What a stage reads from a document: a field path (['$genre']) or a
    literal. A missing field has no value. *)
Inductive operand :=
| Field (f : string)
| Const (v : value).

Inductive expr :=
| Op (o : operand)
| Subtract (a b : expr)
| Mod (a b : expr).

Definition eval_operand (o : operand) (d : doc) : option value :=
  match o with
  | Field f => d !! f
  | Const v => Some v
  end.

Definition nullish (x : option value) : bool :=
  match x with
  | None | Some VNull => true
  | _ => false
  end.

(** [$subtract] and [$mod] give [null] when an argument is [null] or
    missing, and fail on the other non-numbers. *)
Definition subtract_values (x y : option value) : res (option value) :=
  if nullish x || nullish y then Ok (Some VNull)
  else match x, y with
       | Some (VNum a), Some (VNum b) => Ok (Some (VNum (a - b)%Qc))
       | _, _ => Err (TypeMismatch "$subtract")
       end.

Definition mod_values (x y : option value) : res (option value) :=
  if nullish x || nullish y then Ok (Some VNull)
  else match x, y with
       | Some (VNum a), Some (VNum b) =>
           if bool_decide (b = Qc_of_Z 0) then Err ModByZero
           else Ok (Some (VNum (num_mod a b)))
       | _, _ => Err (TypeMismatch "$mod")
       end.

Fixpoint eval (e : expr) (d : doc) : res (option value) :=
  match e with
  | Op o => Ok (eval_operand o d)
  | Subtract a b => x ← eval a d; y ← eval b d; subtract_values x y
  | Mod a b => x ← eval a d; y ← eval b d; mod_values x y
  end.

Inductive accumulator :=
| Avg (o : operand)
| Sum (o : operand)
| First (o : operand).

Inductive stage :=
| Project (fields : list (string * expr))
| Group (id : operand) (accs : list (string * accumulator))
| Sort (spec : sort_spec).

(** [$project] keeps [_id] and adds the computed fields; a field whose
    expression has no value is left out. *)
Fixpoint project_fields (fields : list (string * expr)) (d out : doc)
  : res doc :=
  match fields with
  | [] => Ok out
  | (n, e) :: fields' =>
      v ← eval e d;
      project_fields fields' d
        (match v with Some x => <[n := x]> out | None => out end)
  end.

Definition project_doc (fields : list (string * expr)) (d : doc) : res doc :=
  project_fields fields d
    (match d !! "_id" with Some i => {["_id" := i]} | None => ∅ end).

(** [$group]: the documents are taken one by one; each joins the bucket of
    its key, or opens a new bucket. *)
Definition group_key (id : operand) (d : doc) : value :=
  default VNull (eval_operand id d).

Fixpoint add_to_group (k : value) (d : doc) (tbl : list (value * list doc))
  : list (value * list doc) :=
  match tbl with
  | [] => [(k, [d])]
  | (k', ds) :: tbl' =>
      if bool_decide (k' = k) then (k', ds ++ [d]) :: tbl'
      else (k', ds) :: add_to_group k d tbl'
  end.

Definition group_docs (id : operand) (c : collection)
  : list (value * list doc) :=
  foldl (fun tbl d => add_to_group (group_key id d) d tbl) [] c.

(** The numbers among the values an accumulator sees: [$avg] and [$sum]
    skip everything else. *)
Definition numeric_values (o : operand) (ds : list doc) : list Qc :=
  omap (fun d => match eval_operand o d with
                 | Some (VNum q) => Some q
                 | _ => None
                 end) ds.

Definition Qc_sum (l : list Qc) : Qc := foldr Qcplus (Qc_of_Z 0) l.

(** [$avg] keeps the double nearest to the sum of the numbers it has seen
    and divides it, in doubles, by their count. [$sum] adds integers
    exactly; the script sums the literal 1 only. *)
Definition run_acc (a : accumulator) (ds : list doc) : value :=
  match a with
  | Avg o =>
      match numeric_values o ds with
      | [] => VNull
      | xs =>
          VNum (double (double (Qc_sum xs)
                        / Qc_of_Z (Z.of_nat (length xs))))%Qc
      end
  | Sum o => VNum (Qc_sum (numeric_values o ds))
  | First o =>
      match ds with
      | [] => VNull
      | d :: _ => default VNull (eval_operand o d)
      end
  end.

Definition group_out (accs : list (string * accumulator))
    (b : value * list doc) : doc :=
  foldr (fun na out => <[na.1 := run_acc na.2 b.2]> out)
        {["_id" := b.1]} accs.

Definition run_stage (s : stage) (c : collection) : res collection :=
  match s with
  | Project fields => mapM (project_doc fields) c
  | Group id accs => Ok (group_out accs <$> group_docs id c)
  | Sort spec => Ok (sort_docs spec c)
  end.

Fixpoint aggregate (pipeline : list stage) (c : collection)
  : res collection :=
  match pipeline with
  | [] => Ok c
  | s :: pipeline' => c' ← run_stage s c; aggregate pipeline' c'
  end.

(** *** Projections *)

(** A projection object either lists the fields to return, saying
    whether [_id] comes with them ([{title: 1, _id: 0}]), or lists the
    fields to leave out. The store refuses an object that does both. *)
Inductive projection :=
| Include (fields : list string) (with_id : bool)
| Exclude (fields : list string).

Definition projected (p : projection) (f : string) : bool :=
  match p with
  | Include fields with_id =>
      if bool_decide (f = "_id") then with_id else bool_decide (f ∈ fields)
  | Exclude fields => negb (bool_decide (f ∈ fields))
  end.

Definition apply_projection (p : projection) (d : doc) : doc :=
  filter (fun kv : string * value => projected p kv.1) d.

(** *** Indexes *)

(** The catalogue of a collection: the key patterns of the indexes that
    were created on it, in the order of their creation. The index on [_id]
    exists from the start and is not in the list. Every index is a plain
    one: it has the default options and the name the store derives from
    its key pattern, as the script sets no option and never names one. *)
Abbreviation catalogue := (list sort_spec).

#[global] Instance direction_eq_dec : EqDecision direction.
Proof. solve_decision. Defined.

Definition id_key : sort_spec := [("_id", Asc)].

Definition direction_string (dir : direction) : string :=
  match dir with
  | Asc => "1"
  | Desc => "-1"
  end.

(** [field1_dir1_field2_dir2...] *)
Fixpoint derived_name (key : sort_spec) : string :=
  match key with
  | [] => ""
  | (f, dir) :: key' =>
      match key' with
      | [] => f +:+ "_" +:+ direction_string dir
      | _ => f +:+ "_" +:+ direction_string dir +:+ "_" +:+ derived_name key'
      end
  end.

Definition index_name (key : sort_spec) : string :=
  if bool_decide (key = id_key) then "_id_" else derived_name key.

Record IndexDescription := { v : nat; key : sort_spec; name : string }.

Definition indexes (cat : catalogue) : list IndexDescription :=
  (fun k => {| v := 2; key := k; name := index_name k |}) <$> (id_key :: cat).

Inductive CreateIndexResult :=
| Created (name : string) (cat : catalogue)
| IndexConflict (name : string)
| TooManyIndexes
| EmptyKey.

(** A collection has at most 64 indexes, the one on [_id] included. *)
Definition max_indexes : nat := 64.

(** Creating an index that exists changes nothing and returns its name. A
    new key pattern is refused when its name is taken by another index,
    and when the collection has its 64 indexes. *)
Definition createIndex (key : sort_spec) (cat : catalogue)
  : CreateIndexResult :=
  match key with
  | [] => EmptyKey
  | _ =>
      if bool_decide (key ∈ id_key :: cat) then Created (index_name key) cat
      else if bool_decide (index_name key ∈ index_name <$> id_key :: cat)
           then IndexConflict (index_name key)
           else if bool_decide (max_indexes ≤ length (id_key :: cat))%nat
                then TooManyIndexes
                else Created (index_name key) (cat ++ [key])
  end.

(** *** Reads through an index: [find(q, {projection: p})] *)

(** An index serves a filter that asks for one value of one field when
    its key pattern starts with that field. Where several indexes do, the
    store tries them on the data and keeps one; the model takes the
    oldest. It is the only case the script meets: no index that the
    script creates serves its range filters. *)
Definition leads_with (f : string) (k : sort_spec) : bool :=
  match k with
  | (f', _) :: _ => bool_decide (f' = f)
  | [] => false
  end.

Definition served_by (q : filter_doc) (cat : catalogue) : option sort_spec :=
  match q with
  | [(f, Equals _)] => List.find (leads_with f) cat
  | _ => None
  end.

(** The documents of an index scan come in the order of the index
    entries: by the key pattern, and in natural order where all keys are
    equal. *)
Fixpoint insert_by (spec : sort_spec) (d : doc) (l : collection)
  : collection :=
  match l with
  | [] => [d]
  | x :: l' =>
      match doc_compare spec x d with
      | Lt => x :: insert_by spec d l'
      | _ => d :: l
      end
  end.

Definition index_order (spec : sort_spec) (c : collection) : collection :=
  foldr (insert_by spec) [] c.

Definition find_with (cat : catalogue) (q : filter_doc) (c : collection)
  : collection :=
  match served_by q cat with
  | Some k => index_order k (find q c)
  | None => find q c
  end.

Definition find_projected (q : filter_doc) (p : projection)
    (cat : catalogue) (c : collection) : collection :=
  apply_projection p <$> find_with cat q c.

End Store.

Import Store.

(** ** [queries.js] *)

Module Queries.

(** [createBook]: [collection.insertOne(bookData)]. *)
Definition createBook (bookData : doc) (c : collection)
  : res (InsertOneResult * collection) :=
  insertOne bookData c.

(** [readBook]: [collection.findOne({ title })]. *)
Definition readBook (title : string) (c : collection) : option doc :=
  findOne [("title", Equals (VStr title))] c.

(** [updateBookPrice]:
    [collection.updateOne({ title }, { $set: { price: newPrice } })]. *)
Definition updateBookPrice (title : string) (newPrice : value)
    (c : collection) : res (UpdateResult * collection) :=
  updateOne [("title", Equals (VStr title))] [("price", newPrice)] c.

(** [deleteBook]: [collection.deleteOne({ title })]. *)
Definition deleteBook (title : string) (c : collection)
  : DeleteResult * collection :=
  deleteOne [("title", Equals (VStr title))] c.

(** [findBooksBetweenYears]:
    [find({published_year: {$gte: startYear, $lte: endYear}})
       .sort({published_year: 1})]. *)
Definition findBooksBetweenYears (startYear endYear : Qc) (c : collection)
  : collection :=
  sort_docs [("published_year", Asc)]
    (find [("published_year",
            Ops [(OpGte, VNum startYear); (OpLte, VNum endYear)])] c).

(** [findAffordableBooksInStock]:
    [find({price: {$lt: maxPrice}, in_stock: true})]. *)
Definition findAffordableBooksInStock (maxPrice : Qc) (c : collection)
  : collection :=
  find [("price", Ops [(OpLt, VNum maxPrice)]);
        ("in_stock", Equals (VBool true))] c.

(** [getAveragePriceByGenre]:
    [[{$group: {_id: '$genre', averagePrice: {$avg: '$price'}}},
      {$sort: {averagePrice: -1}}]]. *)
Definition getAveragePriceByGenre (c : collection) : res collection :=
  aggregate
    [Group (Field "genre") [("averagePrice", Avg (Field "price"))];
     Sort [("averagePrice", Desc)]] c.

(** [getBooksByDecade]:
    [[{$project: {decade: {$subtract:
         ['$published_year', {$mod: ['$published_year', 10]}]}}},
      {$group: {_id: '$decade', count: {$sum: 1}}},
      {$sort: {_id: 1}}]]. *)
Definition getBooksByDecade (c : collection) : res collection :=
  aggregate
    [Project [("decade",
               Subtract (Op (Field "published_year"))
                        (Mod (Op (Field "published_year"))
                             (Op (Const (num_of_Z 10)))))];
     Group (Field "decade") [("count", Sum (Const (num_of_Z 1)))];
     Sort [("_id", Asc)]] c.

(** [getMostExpensiveByGenre]:
    [[{$sort: {genre: 1, price: -1}},
      {$group: {_id: '$genre', title: {$first: '$title'},
                author: {$first: '$author'}, price: {$first: '$price'}}}]]. *)
Definition getMostExpensiveByGenre (c : collection) : res collection :=
  aggregate
    [Sort [("genre", Asc); ("price", Desc)];
     Group (Field "genre")
       [("title", First (Field "title"));
        ("author", First (Field "author"));
        ("price", First (Field "price"))]] c.

(** [findBooksByGenre]:
    [find({ genre }, {projection: {title: 1, author: 1, price: 1, _id: 0}})]. *)
Definition findBooksByGenre (genre : string) (cat : catalogue)
    (c : collection) : collection :=
  find_projected [("genre", Equals (VStr genre))]
    (Include ["title"; "author"; "price"] false) cat c.

(** [createTitleIndex]: [collection.createIndex({ title: 1 })]. *)
Definition createTitleIndex (cat : catalogue) : CreateIndexResult :=
  createIndex [("title", Asc)] cat.

(** [createGenreYearIndex]:
    [collection.createIndex({ genre: 1, published_year: -1 })]. *)
Definition createGenreYearIndex (cat : catalogue) : CreateIndexResult :=
  createIndex [("genre", Asc); ("published_year", Desc)] cat.

(** [listIndexes]: [collection.indexes()]. *)
Definition listIndexes (cat : catalogue) : list IndexDescription :=
  indexes cat.

End Queries.

Import Queries.

(** ** The book records of the data model and a sample collection *)

Module Sample.

(** The record a caller hands to [createBook]: the eight attributes of a
    book, and no identifier yet. *)
Definition valid_book_data (r : doc) : bool :=
  is_str (r !! "title") && is_str (r !! "author") && is_str (r !! "genre")
  && is_int (r !! "published_year") && is_num (r !! "price")
  && is_bool (r !! "in_stock") && is_int (r !! "pages")
  && is_str (r !! "publisher") && bool_decide (r !! "_id" = None).

(** [decimal n k] is the JS number written [n / 10^k] in decimal, the
    double nearest to it: [decimal 1099 2] is the literal 10.99. *)
Definition decimal (n : Z) (k : nat) : Qc :=
  double (Q2Qc (Qmake n (Pos.pow 10 (Pos.of_nat k)))).

Definition book (title author genre : string) (year : Z) (price : Qc)
    (stock : bool) (pages : Z) (publisher : string) : doc :=
  <["title" := VStr title]> (<["author" := VStr author]>
  (<["genre" := VStr genre]> (<["published_year" := num_of_Z year]>
  (<["price" := VNum price]> (<["in_stock" := VBool stock]>
  (<["pages" := num_of_Z pages]> (<["publisher" := VStr publisher]> ∅))))))).

Definition stored (n : N) (r : doc) : doc := <["_id" := VOid n]> r.

Definition nineteen_eighty_four : doc :=
  book "1984" "George Orwell" "Dystopian" 1949 (decimal 1099 2) true 328
       "Secker & Warburg".

Definition animal_farm : doc :=
  book "Animal Farm" "George Orwell" "Political Satire" 1945 (decimal 85 1)
       false 112 "Secker & Warburg".

Definition brave_new_world : doc :=
  book "Brave New World" "Aldous Huxley" "Dystopian" 1932 (decimal 115 1)
       false 311 "Chatto & Windus".

Definition the_hobbit : doc :=
  book "The Hobbit" "J.R.R. Tolkien" "Fantasy" 1937 (decimal 1499 2) true 310
       "George Allen & Unwin".

Definition the_silent_patient : doc :=
  book "The Silent Patient" "Alex Michaelides" "Thriller" 2019
       (decimal 1399 2) true 325 "Celadon Books".

(** A cheaper reprint with the title of a book already in [books]. *)
Definition reprint_1984 : doc :=
  book "1984" "George Orwell" "Dystopian" 1949 (decimal 599 2) true 328
       "Penguin".

(** A record without a title. *)
Definition untitled : doc := delete "title" the_silent_patient.

Definition books : collection :=
  [stored 1 nineteen_eighty_four; stored 2 brave_new_world;
   stored 3 the_hobbit; stored 4 animal_farm].

(** A result as a table: the listed fields of each document, a number
    shown as the fraction it is. *)
Inductive cell :=
| Str (s : string)
| Num (q : Q)
| Bool (b : bool)
| Oid (n : N)
| Null
| Missing.

Definition cell_of (x : option value) : cell :=
  match x with
  | Some (VStr s) => Str s
  | Some (VNum q) => Num (this q)
  | Some (VBool b) => Bool b
  | Some (VOid n) => Oid n
  | Some VNull => Null
  | None => Missing
  end.

Definition rows (fields : list string) (r : res collection)
  : list (list cell) :=
  match r with
  | Ok out => (fun d => (fun f => cell_of (d !! f)) <$> fields) <$> out
  | Err _ => []
  end.

End Sample.

Import Sample.

(** ** The script: the calls at the end of [queries.js] *)

Module Script.

(** The run stops at the first call that the store refuses; what the
    earlier calls wrote stays written. The outcome is the state the run
    leaves: the collection and the catalogue of its indexes. *)
Inductive outcome :=
| Completed (c : collection) (cat : catalogue)
| Rejected (call : string) (c : collection) (cat : catalogue).

Definition main (c : collection) (cat : catalogue) : outcome :=
  match createBook the_silent_patient c with
  | Err _ => Rejected "createBook" c cat
  | Ok (_, c1) =>
  let _ := readBook "1984" c1 in
  match updateBookPrice "The Hobbit" (VNum (decimal 1599 2)) c1 with
  | Err _ => Rejected "updateBookPrice" c1 cat
  | Ok (_, c2) =>
  let '(_, c3) := deleteBook "Moby Dick" c2 in
  let _ := findBooksByGenre "Fiction" cat c3 in
  let _ := findBooksBetweenYears (Qc_of_Z 1900) (Qc_of_Z 1950) c3 in
  let _ := findAffordableBooksInStock (Qc_of_Z 10) c3 in
  match getAveragePriceByGenre c3 with
  | Err _ => Rejected "getAveragePriceByGenre" c3 cat
  | Ok _ =>
  match getBooksByDecade c3 with
  | Err _ => Rejected "getBooksByDecade" c3 cat
  | Ok _ =>
  match getMostExpensiveByGenre c3 with
  | Err _ => Rejected "getMostExpensiveByGenre" c3 cat
  | Ok _ =>
  match createTitleIndex cat with
  | Created _ cat1 =>
      match createGenreYearIndex cat1 with
      | Created _ cat2 =>
          let _ := listIndexes cat2 in
          Completed c3 cat2
      | _ => Rejected "createGenreYearIndex" c3 cat1
      end
  | _ => Rejected "createTitleIndex" c3 cat
  end end end end end end.

End Script.

Import Script.

(** ** The properties of records that the queries select and order by *)

Module Props.

Definition price_below (m : Qc) (d : doc) : Prop :=
  match d !! "price" with
  | Some (VNum p) => (p < m)%Qc
  | _ => False
  end.

Definition in_stock (d : doc) : Prop := d !! "in_stock" = Some (VBool true).

Definition affordable_in_stock (m : Qc) (d : doc) : Prop :=
  price_below m d ∧ in_stock d.

Definition year_between (s e : Qc) (d : doc) : Prop :=
  match d !! "published_year" with
  | Some (VNum y) => (s ≤ y)%Qc ∧ (y ≤ e)%Qc
  | _ => False
  end.

(** Both records have a numeric year and the first is not after the
    second. *)
Definition year_le (d1 d2 : doc) : Prop :=
  match d1 !! "published_year", d2 !! "published_year" with
  | Some (VNum a), Some (VNum b) => (a ≤ b)%Qc
  | _, _ => False
  end.

Definition price_num (d : doc) : Qc :=
  match d !! "price" with
  | Some (VNum p) => p
  | _ => Qc_of_Z 0
  end.


(** The sum and the arithmetic mean of a list of numbers. *)
Fixpoint total (l : list Qc) : Qc :=
  match l with
  | [] => Qc_of_Z 0
  | x :: l' => (x + total l')%Qc
  end.

Definition mean (l : list Qc) : Qc :=
  (total l / Qc_of_Z (Z.of_nat (length l)))%Qc.

(** The mean as doubles give it: the double nearest to the sum, divided
    by the count, and the double nearest to that quotient. *)
Definition average (l : list Qc) : Qc :=
  double (double (total l) / Qc_of_Z (Z.of_nat (length l)))%Qc.

(** The distance from a number to the nearest double is at most [eps]
    times the number: [eps] is [2^-53]. *)
Definition eps : Qc := Q2Qc (1 # 2 ^ 53).

(** [a] is [m] up to rounding: a relative error of three [eps] at
    most. *)
Definition near (a m : Qc) : Prop :=
  (Qcabs.Qcabs (a - m) ≤ Qc_of_Z 3 * eps * Qcabs.Qcabs m)%Qc.

(** A price that is a double, zero or between [2^-1000] and [2^1000]:
    the sums of a million such prices and their quotients stay in the
    range of normal doubles. *)
Definition ordinary (p : Qc) : Prop :=
  double p = p
  ∧ (p = Qc_of_Z 0
     ∨ (Q2Qc (2 ^ (-1000)) ≤ p)%Qc ∧ (p ≤ Q2Qc (2 ^ 1000))%Qc).

Definition ordinary_price (d : doc) : Prop :=
  match d !! "price" with
  | Some (VNum p) => ordinary p
  | _ => False
  end.

(** The prices of the records of genre [g]. *)
Definition genre_prices (g : value) (c : collection) : list Qc :=
  price_num <$> filter (fun d => field "genre" d = g) c.

(** [published_year − (published_year mod 10)]. *)
Definition decade (y : Qc) : Qc := (y - num_mod y (Qc_of_Z 10))%Qc.





#[global] Instance ordinary_dec p : Decision (ordinary p).
Proof. unfold ordinary. apply _. Defined.

#[global] Instance ordinary_price_dec d : Decision (ordinary_price d).
Proof.
  unfold ordinary_price. destruct (d !! "price") as [[]|]; apply _.
Defined.

#[global] Instance price_below_dec m d : Decision (price_below m d).
Proof. unfold price_below. destruct (d !! "price") as [[]|]; apply _. Defined.

#[global] Instance affordable_in_stock_dec m d :
  Decision (affordable_in_stock m d).
Proof. unfold affordable_in_stock, in_stock. apply _. Defined.

#[global] Instance year_between_dec s e d : Decision (year_between s e d).
Proof.
  unfold year_between. destruct (d !! "published_year") as [[]|]; apply _.
Defined.

End Props.

Import Props.

(** ** Further notions: identifiers, prices and decades of any record, index
    names, what a run of the script leaves *)

Module Notions.

Definition ids (c : collection) : list (option value) :=
  (fun d => d !! "_id") <$> c.


(** The price of a record, if it has a numeric one. *)
Definition numeric_price (d : doc) : option Qc :=
  match d !! "price" with
  | Some (VNum p) => Some p
  | _ => None
  end.

(** The numeric prices of the records of genre [g]. *)
Definition numeric_prices_of (g : value) (c : collection) : list Qc :=
  omap numeric_price (filter (fun d => field "genre" d = g) c).

(** The [averagePrice] of the group of [g]: [null] when no record of the
    genre has a numeric price. *)
Definition average_value (g : value) (c : collection) : value :=
  match numeric_prices_of g c with
  | [] => VNull
  | ps => VNum (average ps)
  end.

(** The collection has its 64 indexes. *)
Definition full (cat : catalogue) : Prop :=
  (max_indexes ≤ length (id_key :: cat))%nat.

#[global] Instance full_dec cat : Decision (full cat).
Proof. unfold full. apply _. Defined.

(** A year that [$mod] refuses: neither a number nor [null] nor missing. *)
Definition bad_year (d : doc) : Prop :=
  match d !! "published_year" with
  | Some (VStr _ | VOid _ | VBool _) => True
  | _ => False
  end.

#[global] Instance bad_year_dec d : Decision (bad_year d).
Proof.
  unfold bad_year. destruct (d !! "published_year") as [[]|]; apply _.
Defined.

(** The decade of a record as a value: [null] for a record without a
    year. *)
Definition decade_value (d : doc) : value :=
  match d !! "published_year" with
  | Some (VNum y) => VNum (decade y)
  | _ => VNull
  end.

Definition count_decade (k : value) (c : collection) : nat :=
  length (filter (fun d => decade_value d = k) c).

(** What [$project] makes of a record whose year [$mod] accepts. *)
Definition decade_view (d : doc) : doc :=
  <["decade" := decade_value d]>
    (match d !! "_id" with Some i => {["_id" := i]} | None => ∅ end).

(** The [$project] stage of [getBooksByDecade]. *)
Definition decade_stage : list (string * expr) :=
  [("decade",
    Subtract (Op (Field "published_year"))
             (Mod (Op (Field "published_year"))
                  (Op (Const (num_of_Z 10)))))].


(** The number of underscores of a name. *)
Fixpoint underscores (s : string) : nat :=
  match s with
  | EmptyString => 0
  | String a s' =>
      (if bool_decide (a = Ascii.ascii_of_nat 95) then 1 else 0)
      + underscores s'
  end.

(** The pieces of a name between its underscores. *)
Fixpoint segments (s : string) : list string :=
  match s with
  | EmptyString => [""]
  | String a s' =>
      if bool_decide (a = Ascii.ascii_of_nat 95) then "" :: segments s'
      else match segments s' with
           | [] => [String a ""]
           | x :: l => String a x :: l
           end
  end.

(** The two key patterns named genre_1_published_year_-1. *)
Definition genre_year_key : sort_spec :=
  [("genre", Asc); ("published_year", Desc)].

Definition genre_year_rival : sort_spec :=
  [("genre_1_published_year", Desc)].

Definition title_key : sort_spec := [("title", Asc)].

(** The catalogue once an index on [k] is asked for: [k] is added at the
    end unless it is there. *)
Definition with_index (k : sort_spec) (cat : catalogue) : catalogue :=
  if bool_decide (k ∈ id_key :: cat) then cat else cat ++ [k].

(** The number of records of a title. *)
Definition copies (t : string) (c : collection) : nat :=
  length (find [("title", Equals (VStr t))] c).

(** The collection a run leaves. *)
Definition collection_of (o : outcome) : collection :=
  match o with
  | Completed c _ => c
  | Rejected _ c _ => c
  end.

(** The catalogue a run leaves. *)
Definition catalogue_of (o : outcome) : catalogue :=
  match o with
  | Completed _ cat => cat
  | Rejected _ _ cat => cat
  end.

(** What a run comes to once its three writes have left the collection
    [c3]. *)
Definition run_outcome (c3 : collection) (cat : catalogue) : outcome :=
  if decide (Exists bad_year c3)
  then Rejected "getBooksByDecade" c3 cat
  else if decide ((title_key ∉ cat) ∧ full cat)
  then Rejected "createTitleIndex" c3 cat
  else if decide ((genre_year_key ∉ cat)
                  ∧ (genre_year_rival ∈ cat
                     ∨ full (with_index title_key cat)))
  then Rejected "createGenreYearIndex" c3 (with_index title_key cat)
  else Completed c3 (with_index genre_year_key (with_index title_key cat)).

End Notions.

Import Notions.

(** ** Filters by title and the first match *)

Lemma matches_title (t : string) (d : doc) :
  matches [("title", Equals (VStr t))] d
  = bool_decide (d !! "title" = Some (VStr t)).
Proof.
  unfold matches, field; simpl. rewrite andb_true_r.
  apply bool_decide_ext. destruct (d !! "title"); simpl; naive_solver.
Qed.

Lemma findOne_app (q : filter_doc) (c1 c2 : collection) :
  Forall (fun d => matches q d = false) c1 →
  findOne q (c1 ++ c2) = findOne q c2.
Proof.
  unfold findOne. induction 1 as [|d c1 Hd _ IH]; simpl; [done|].
  by rewrite Hd.
Qed.

Lemma findOne_head (q : filter_doc) (d : doc) (c : collection) :
  matches q d = true → findOne q (d :: c) = Some d.
Proof. intros Hd. unfold findOne. cbn [List.find]. by rewrite Hd. Qed.

Lemma findOne_None (q : filter_doc) (c : collection) :
  findOne q c = None ↔ Forall (fun d => matches q d = false) c.
Proof.
  unfold findOne. induction c as [|d c IH]; simpl.
  - split; [constructor | done].
  - destruct (matches q d) eqn:Hd.
    + split; [done | by inversion 1; congruence].
    + rewrite IH. split; [by constructor | by inversion 1].
Qed.

(** The first match splits the collection: nothing before it matches. *)
Lemma findOne_Some (q : filter_doc) (c : collection) (d : doc) :
  findOne q c = Some d →
  ∃ c1 c2, c = c1 ++ d :: c2 ∧ matches q d = true
           ∧ Forall (fun x => matches q x = false) c1.
Proof.
  unfold findOne. induction c as [|x c IH]; simpl; [done|].
  destruct (matches q x) eqn:Hx.
  - intros [= <-]. by exists [], c.
  - intros (c1 & c2 & -> & ? & ?)%IH. exists (x :: c1), c2. auto.
Qed.

Lemma find_nil_findOne (q : filter_doc) (c : collection) :
  find q c = [] ↔ findOne q c = None.
Proof.
  rewrite findOne_None. unfold find.
  induction c as [|d c IH]; [by split; constructor|].
  rewrite filter_cons, Forall_cons. destruct (matches q d) eqn:Hd; simpl.
  - split; [done | by intros [? _]].
  - rewrite IH. split; [by split | by intros [_ ?]].
Qed.

(** ** [insertOne] *)

Lemma oid_le_max (c : collection) (d : doc) :
  d ∈ c → (oid_of d ≤ foldr N.max 0 (oid_of <$> c))%N.
Proof.
  induction 1 as [d c|d x c _ IH]; rewrite fmap_cons; cbn [foldr]; lia.
Qed.

Lemma fresh_oid_fresh (c : collection) (d : doc) :
  d ∈ c → d !! "_id" ≠ Some (fresh_oid c).
Proof.
  intros Hd%oid_le_max Heq. unfold oid_of at 1 in Hd. rewrite Heq in Hd.
  unfold fresh_oid in Hd. lia.
Qed.

(** ** [updateOne] and [deleteOne] at the first match *)

Lemma updateOne_no_match (q : filter_doc) (u : set_doc) (c : collection) :
  Forall (fun d => matches q d = false) c →
  updateOne q u c = Ok ({| matchedCount := 0; modifiedCount := 0 |}, c).
Proof.
  induction 1 as [|d c Hd _ IH]; simpl; [done|]. by rewrite Hd, IH.
Qed.

Lemma updateOne_first_match (q : filter_doc) (u : set_doc)
    (c1 c2 : collection) (d : doc) :
  Forall (fun x => matches q x = false) c1 →
  matches q d = true →
  apply_set u d !! "_id" = d !! "_id" →
  updateOne q u (c1 ++ d :: c2)
  = Ok ({| matchedCount := 1;
           modifiedCount := if bool_decide (apply_set u d = d) then 0 else 1 |},
        c1 ++ apply_set u d :: c2).
Proof.
  intros Hc1 Hd Hid. induction Hc1 as [|x c1 Hx _ IH]; simpl.
  - by rewrite Hd, bool_decide_eq_true_2.
  - by rewrite Hx, IH.
Qed.

Lemma deleteOne_no_match (q : filter_doc) (c : collection) :
  Forall (fun d => matches q d = false) c →
  deleteOne q c = ({| deletedCount := 0 |}, c).
Proof.
  induction 1 as [|d c Hd _ IH]; simpl; [done|]. by rewrite Hd, IH.
Qed.

Lemma deleteOne_first_match (q : filter_doc) (c1 c2 : collection) (d : doc) :
  Forall (fun x => matches q x = false) c1 →
  matches q d = true →
  deleteOne q (c1 ++ d :: c2) = ({| deletedCount := 1 |}, c1 ++ c2).
Proof.
  intros Hc1 Hd. induction Hc1 as [|x c1 Hx _ IH]; simpl.
  - by rewrite Hd.
  - by rewrite Hx, IH.
Qed.

Lemma set_price_id (v : value) (d : doc) :
  apply_set [("price", v)] d !! "_id" = d !! "_id".
Proof. simpl. by rewrite lookup_insert_ne. Qed.

Lemma set_price_noop (v : value) (d : doc) :
  apply_set [("price", v)] d = d ↔ d !! "price" = Some v.
Proof.
  simpl. split.
  - intros <-. by rewrite lookup_insert_eq.
  - apply insert_id.
Qed.

Lemma title_Forall (t : string) (c : collection) :
  Forall (fun d => matches [("title", Equals (VStr t))] d = false) c
  ↔ Forall (fun d => d !! "title" ≠ Some (VStr t)) c.
Proof.
  apply Forall_proper; [|done]. intros d.
  by rewrite matches_title, bool_decide_eq_false.
Qed.

(** What [updateBookPrice] does when some record has the title: the first
    one gets the price, the collection keeps its shape. *)
Lemma updateBookPrice_first (t : string) (v : value) (c1 c2 : collection)
    (d : doc) :
  Forall (fun x => x !! "title" ≠ Some (VStr t)) c1 →
  d !! "title" = Some (VStr t) →
  updateBookPrice t v (c1 ++ d :: c2)
  = Ok ({| matchedCount := 1;
           modifiedCount := if bool_decide (d !! "price" = Some v)
                            then 0 else 1 |},
        c1 ++ <["price" := v]> d :: c2).
Proof.
  intros Hc1%title_Forall Hd. unfold updateBookPrice.
  rewrite updateOne_first_match; [|done| |apply set_price_id].
  - by rewrite (bool_decide_ext _ _ (set_price_noop v d)).
  - by rewrite matches_title, bool_decide_eq_true.
Qed.

Lemma readBook_split (t : string) (c : collection) (d : doc) :
  readBook t c = Some d →
  ∃ c1 c2, c = c1 ++ d :: c2 ∧ d !! "title" = Some (VStr t)
           ∧ Forall (fun x => x !! "title" ≠ Some (VStr t)) c1.
Proof.
  intros (c1 & c2 & -> & Hd & Hc1)%findOne_Some.
  rewrite matches_title, bool_decide_eq_true in Hd.
  exists c1, c2. by rewrite <- title_Forall.
Qed.

Lemma readBook_first (t : string) (c1 c2 : collection) (d : doc) :
  Forall (fun x => x !! "title" ≠ Some (VStr t)) c1 →
  d !! "title" = Some (VStr t) →
  readBook t (c1 ++ d :: c2) = Some d.
Proof.
  intros Hc1%title_Forall Hd. unfold readBook.
  rewrite findOne_app by done. apply findOne_head.
  by rewrite matches_title, bool_decide_eq_true_2.
Qed.

Lemma readBook_None (t : string) (c : collection) :
  readBook t c = None ↔ Forall (fun d => d !! "title" ≠ Some (VStr t)) c.
Proof. unfold readBook. by rewrite findOne_None, title_Forall. Qed.

(** ** Create and read (C1, C2) *)

(** C1, as stated, fails: [createBook] of a valid record followed by
    [readBook] of its title returns another record, with another price,
    when the collection already holds a record of that title. Here the
    reprint of 1984 at 5.99 is created and the read returns the stored
    1984 at 10.99. *)
Lemma create_then_read_returns_older_record :
  valid_book_data reprint_1984 = true
  ∧ reprint_1984 !! "title" = Some (VStr "1984")
  ∧ reprint_1984 !! "price" = Some (VNum (decimal 599 2))
  ∧ ∃ ir c' d, createBook reprint_1984 books = Ok (ir, c')
      ∧ readBook "1984" c' = Some d
      ∧ d !! "price" = Some (VNum (decimal 1099 2))
      ∧ d !! "price" ≠ reprint_1984 !! "price".
Proof.
  repeat split; [done..|].
  exists {| acknowledged := true; insertedId := VOid 5 |},
    (books ++ [stored 5 reprint_1984]), (stored 1 nineteen_eighty_four).
  repeat split; [done..|]. by vm_compute.
Qed.

(** C1, amended: for every valid book record [r] with title [t] and every
    collection that holds no record of title [t], [createBook r] succeeds
    and [readBook t] then returns a record that carries the identifier the
    store assigned and agrees with [r] on every other field. *)
Theorem create_then_read (r : doc) (t : string) (c : collection) :
  valid_book_data r = true →
  r !! "title" = Some (VStr t) →
  Forall (fun d => d !! "title" ≠ Some (VStr t)) c →
  ∃ ir c' d, createBook r c = Ok (ir, c')
    ∧ readBook t c' = Some d
    ∧ d !! "_id" = Some (insertedId ir)
    ∧ ∀ f, f ≠ "_id" → d !! f = r !! f.
Proof.
  intros Hr Ht Hc. unfold valid_book_data in Hr.
  apply andb_true_iff in Hr as [_ Hid%bool_decide_eq_true].
  unfold createBook, insertOne. rewrite Hid.
  exists {| acknowledged := true; insertedId := fresh_oid c |},
    (c ++ [<["_id" := fresh_oid c]> r]), (<["_id" := fresh_oid c]> r).
  split; [done|]. repeat split.
  - apply readBook_first; [done|]. by rewrite lookup_insert_ne.
  - by rewrite lookup_insert_eq.
  - intros f Hf. by rewrite lookup_insert_ne.
Qed.

Lemma create_then_read_witness :
  ∃ ir c' d, createBook the_silent_patient books = Ok (ir, c')
    ∧ readBook "The Silent Patient" c' = Some d
    ∧ d !! "_id" = Some (insertedId ir)
    ∧ ∀ f, f ≠ "_id" → d !! f = the_silent_patient !! f.
Proof.
  apply (create_then_read the_silent_patient "The Silent Patient" books).
  - reflexivity.
  - reflexivity.
  - repeat constructor; vm_compute; discriminate.
Defined.

(** C2, as stated, fails: a record without a title is not refused.
    [createBook] inserts it and returns an identifier. *)
Lemma create_untitled_is_inserted :
  untitled !! "title" = None
  ∧ createBook untitled books
    = Ok ({| acknowledged := true; insertedId := VOid 5 |},
          books ++ [stored 5 untitled]).
Proof. split; reflexivity. Qed.

(** C2, amended: [createBook] validates nothing. Every record that carries
    no identifier of its own, with or without a title, is appended to the
    collection under a new identifier, which [createBook] returns and which
    no record of the collection had. *)
Theorem createBook_inserts (r : doc) (c : collection) :
  r !! "_id" = None →
  createBook r c
  = Ok ({| acknowledged := true; insertedId := fresh_oid c |},
        c ++ [<["_id" := fresh_oid c]> r])
  ∧ Forall (fun d => d !! "_id" ≠ Some (fresh_oid c)) c.
Proof.
  intros Hid. split.
  - unfold createBook, insertOne. by rewrite Hid.
  - apply Forall_forall. intros d Hd. by apply fresh_oid_fresh.
Qed.

Lemma createBook_inserts_witness :
  createBook untitled books
  = Ok ({| acknowledged := true; insertedId := fresh_oid books |},
        books ++ [<["_id" := fresh_oid books]> untitled])
  ∧ Forall (fun d => d !! "_id" ≠ Some (fresh_oid books)) books.
Proof. apply (createBook_inserts untitled books). reflexivity. Defined.

(** ** Update and delete by title (C5, C9, C10) *)

Lemma find_one_match (q : filter_doc) (c : collection) :
  length (find q c) = 1%nat → ∃ d, findOne q c = Some d.
Proof.
  intros Hlen. destruct (findOne q c) as [d|] eqn:Hf; [by exists d|].
  apply find_nil_findOne in Hf. by rewrite Hf in Hlen.
Qed.

(** C5: when the title matches exactly one record of the collection,
    [updateBookPrice title v] succeeds and [readBook title] then returns a
    record whose price is [v], for every value [v]. *)
Theorem update_price_then_read (t : string) (v : value) (c : collection) :
  length (find [("title", Equals (VStr t))] c) = 1%nat →
  ∃ r c' d, updateBookPrice t v c = Ok (r, c')
    ∧ readBook t c' = Some d
    ∧ d !! "price" = Some v.
Proof.
  intros [d (c1 & c2 & -> & Hd & Hc1)%readBook_split]%find_one_match.
  eexists _, _, (<["price" := v]> d). split.
  - by apply updateBookPrice_first.
  - split; [|by rewrite lookup_insert_eq].
    apply readBook_first; [done|]. by rewrite lookup_insert_ne.
Qed.

Lemma update_price_then_read_witness :
  ∃ r c' d, updateBookPrice "The Hobbit" (VNum (decimal 1599 2)) books
            = Ok (r, c')
    ∧ readBook "The Hobbit" c' = Some d
    ∧ d !! "price" = Some (VNum (decimal 1599 2)).
Proof.
  apply (update_price_then_read "The Hobbit" (VNum (decimal 1599 2)) books).
  reflexivity.
Defined.

(** C9, as stated, fails: the title 1984 matches a record of [books], and
    [updateBookPrice] with the price the record already has reports a
    modified count of 0, not 1. *)
Lemma update_same_price_counts_zero :
  readBook "1984" books = Some (stored 1 nineteen_eighty_four)
  ∧ updateBookPrice "1984" (VNum (decimal 1099 2)) books
    = Ok ({| matchedCount := 1; modifiedCount := 0 |}, books).
Proof. split; reflexivity. Qed.

(** C9, amended: an update or a delete by a title that no record has does
    not fail: it reports a count of 0 and leaves the collection as it was.
    When some record has the title, [deleteBook] reports 1; [updateBookPrice]
    succeeds with a matched count of 1, and its modified count is 1 when the
    first record of that title had another price (or none) and 0 when it
    already had the new price. *)
Theorem update_delete_counts (t : string) (v : value) (c : collection) :
  (Forall (fun d => d !! "title" ≠ Some (VStr t)) c →
     updateBookPrice t v c
     = Ok ({| matchedCount := 0; modifiedCount := 0 |}, c)
     ∧ deleteBook t c = ({| deletedCount := 0 |}, c))
  ∧ (∀ d, readBook t c = Some d →
       (∃ c', updateBookPrice t v c
              = Ok ({| matchedCount := 1;
                       modifiedCount := if bool_decide (d !! "price" = Some v)
                                        then 0 else 1 |}, c'))
       ∧ (∃ c', deleteBook t c = ({| deletedCount := 1 |}, c')
                ∧ length c = S (length c')))
  ∧ (Exists (fun d => d !! "title" = Some (VStr t)) c →
       ∃ d, readBook t c = Some d).
Proof.
  split; [|split].
  - intros Hc%title_Forall. split.
    + by apply updateOne_no_match.
    + by apply deleteOne_no_match.
  - intros d (c1 & c2 & -> & Hd & Hc1)%readBook_split. split.
    + eexists. by apply updateBookPrice_first.
    + exists (c1 ++ c2). split.
      * apply deleteOne_first_match; [by apply title_Forall|].
        by rewrite matches_title, bool_decide_eq_true.
      * rewrite !length_app. simpl. lia.
  - intros Hex. destruct (readBook t c) as [d|] eqn:Hr; [by exists d|].
    apply readBook_None in Hr. apply Exists_exists in Hex as (d & Hin & Hd).
    rewrite Forall_forall in Hr. by destruct (Hr d Hin).
Qed.

(** C10: [updateBookPrice title v] always succeeds and keeps the length of
    the collection; position by position, the record after the update
    agrees with the record before it on every field but [price]; a record
    whose title is not [title] is the same record afterwards; a record that
    changed is the first one of that title, now with price [v]; and at most
    one position changed. *)
Theorem update_price_frame (t : string) (v : value) (c : collection) :
  ∃ r c', updateBookPrice t v c = Ok (r, c')
    ∧ length c' = length c
    ∧ (∀ i d d' f, c !! i = Some d → c' !! i = Some d' → f ≠ "price" →
         d' !! f = d !! f)
    ∧ (∀ i d, c !! i = Some d → d !! "title" ≠ Some (VStr t) →
         c' !! i = Some d)
    ∧ (∀ i d d', c !! i = Some d → c' !! i = Some d' → d' ≠ d →
         readBook t c = Some d ∧ d' = <["price" := v]> d)
    ∧ (∀ i j, c' !! i ≠ c !! i → c' !! j ≠ c !! j → i = j).
Proof.
  destruct (readBook t c) as [d0|] eqn:Hr.
  - destruct (readBook_split _ _ _ Hr) as (c1 & c2 & -> & Hd0 & Hc1).
    eexists _, _. split; [by apply updateBookPrice_first|].
    assert (Hat : ∀ i, i ≠ length c1 →
      (c1 ++ <["price" := v]> d0 :: c2) !! i = (c1 ++ d0 :: c2) !! i).
    { intros i Hi. destruct (decide (i < length c1)%nat).
      - by rewrite !lookup_app_l.
      - rewrite !lookup_app_r by lia.
        destruct (i - length c1)%nat eqn:E; [lia|done]. }
    assert (Hmid : ∀ x, (c1 ++ x :: c2) !! length c1 = Some x).
    { intros x. by rewrite list_lookup_middle. }
    split; [by rewrite !length_app|]. split; [|split; [|split]].
    + intros i d d' f Hd Hd' Hf. destruct (decide (i = length c1)) as [->|Hi].
      * rewrite Hmid in Hd, Hd'. simplify_eq. by rewrite lookup_insert_ne.
      * rewrite Hat in Hd' by done. by simplify_eq.
    + intros i d Hd Hne. destruct (decide (i = length c1)) as [->|Hi].
      * rewrite Hmid in Hd. by simplify_eq.
      * by rewrite Hat.
    + intros i d d' Hd Hd' Hne. destruct (decide (i = length c1)) as [->|Hi].
      * rewrite Hmid in Hd, Hd'. by simplify_eq.
      * rewrite Hat in Hd' by done. by simplify_eq.
    + intros i j Hi Hj.
      destruct (decide (i = length c1)) as [->|Hi']; [|by destruct Hi; apply Hat].
      destruct (decide (j = length c1)) as [->|Hj']; [done|].
      by destruct Hj; apply Hat.
  - apply readBook_None in Hr.
    exists {| matchedCount := 0; modifiedCount := 0 |}, c.
    split; [by apply updateOne_no_match, title_Forall|].
    split; [done|]. split; [|split; [|split]].
    + intros i d d' f Hd Hd' _. by simplify_eq.
    + by intros i d Hd _.
    + intros i d d' Hd Hd' Hne. by simplify_eq.
    + by intros i j Hi _.
Qed.

(** ** The comparison order of values *)

Lemma ascii_compare_lt_trans (a b c : Ascii.ascii) :
  Ascii.compare a b = Lt → Ascii.compare b c = Lt → Ascii.compare a c = Lt.
Proof. unfold Ascii.compare. rewrite !N.compare_lt_iff. lia. Qed.

Lemma string_compare_lt_trans (a b c : string) :
  String.compare a b = Lt → String.compare b c = Lt →
  String.compare a c = Lt.
Proof.
  revert b c. induction a as [|x a IH]; intros [|y b] [|z c]; simpl;
    try done.
  destruct (Ascii.compare x y) eqn:Hxy; try done;
    destruct (Ascii.compare y z) eqn:Hyz; try done; intros Hab Hbc.
  - apply Ascii.compare_eq_iff in Hxy as ->, Hyz as ->.
    rewrite (proj2 (N.compare_eq_iff _ _) eq_refl : Ascii.compare z z = Eq).
    by eapply IH.
  - apply Ascii.compare_eq_iff in Hxy as ->. by rewrite Hyz.
  - apply Ascii.compare_eq_iff in Hyz as <-. by rewrite Hxy.
  - by rewrite (ascii_compare_lt_trans x y z).
Qed.

Lemma value_compare_antisym (a b : value) :
  value_compare b a = CompOpp (value_compare a b).
Proof.
  destruct a, b; simpl; try done.
  - unfold Qccompare. by rewrite <- Qcompare_antisym.
  - apply String.compare_antisym.
  - apply N.compare_antisym.
  - by destruct b, b0.
Qed.

Lemma value_compare_eq (a b : value) : value_compare a b = Eq → a = b.
Proof.
  destruct a, b; simpl; try done.
  - by intros ->%Qceq_alt.
  - by intros ->%String.compare_eq_iff.
  - by intros ->%N.compare_eq_iff.
  - by destruct b, b0.
Qed.

Lemma value_compare_refl (a : value) : value_compare a a = Eq.
Proof.
  destruct a; simpl; try done.
  - by apply Qceq_alt.
  - generalize (String.compare_antisym s s). by destruct (String.compare s s).
  - apply N.compare_refl.
  - by destruct b.
Qed.

Lemma value_compare_lt_trans (a b c : value) :
  value_compare a b = Lt → value_compare b c = Lt → value_compare a c = Lt.
Proof.
  destruct a, b, c; simpl; try done.
  - rewrite <- !Qclt_alt. apply Qclt_trans.
  - apply string_compare_lt_trans.
  - rewrite !N.compare_lt_iff. lia.
  - by destruct b, b0, b1.
Qed.

(** ** Sorting: [doc_le] is a total preorder *)

Lemma directed_antisym (dir : direction) (a b : value) :
  directed dir (value_compare b a)
  = CompOpp (directed dir (value_compare a b)).
Proof.
  rewrite (value_compare_antisym a b).
  by destruct dir, (value_compare a b).
Qed.

Lemma directed_eq (dir : direction) (a b : value) :
  directed dir (value_compare a b) = Eq → a = b.
Proof.
  intros H. apply value_compare_eq. by destruct dir, (value_compare a b).
Qed.

Lemma directed_lt_trans (dir : direction) (a b c : value) :
  directed dir (value_compare a b) = Lt →
  directed dir (value_compare b c) = Lt →
  directed dir (value_compare a c) = Lt.
Proof.
  destruct dir; simpl; [apply value_compare_lt_trans|].
  rewrite <- !value_compare_antisym. intros Hba Hcb.
  by apply (value_compare_lt_trans c b a).
Qed.

Lemma doc_compare_antisym (spec : sort_spec) (d1 d2 : doc) :
  doc_compare spec d2 d1 = CompOpp (doc_compare spec d1 d2).
Proof.
  induction spec as [|[f dir] spec IH]; simpl; [done|].
  rewrite (directed_antisym dir (field f d1) (field f d2)).
  by destruct (directed dir _).
Qed.

Lemma doc_compare_eq_l (spec : sort_spec) (d1 d2 d3 : doc) :
  doc_compare spec d1 d2 = Eq →
  doc_compare spec d1 d3 = doc_compare spec d2 d3.
Proof.
  induction spec as [|[f dir] spec IH]; simpl; [done|].
  destruct (directed dir (value_compare (field f d1) (field f d2))) eqn:H12;
    try done.
  apply directed_eq in H12 as ->. intros ->%IH. done.
Qed.

Lemma doc_compare_eq_r (spec : sort_spec) (d1 d2 d3 : doc) :
  doc_compare spec d2 d3 = Eq →
  doc_compare spec d1 d3 = doc_compare spec d1 d2.
Proof.
  induction spec as [|[f dir] spec IH]; simpl; [done|].
  destruct (directed dir (value_compare (field f d2) (field f d3))) eqn:H23;
    try done.
  apply directed_eq in H23 as ->. intros ->%IH. done.
Qed.

Lemma doc_compare_lt_trans (spec : sort_spec) (d1 d2 d3 : doc) :
  doc_compare spec d1 d2 = Lt → doc_compare spec d2 d3 = Lt →
  doc_compare spec d1 d3 = Lt.
Proof.
  induction spec as [|[f dir] spec IH]; simpl; [done|].
  destruct (directed dir (value_compare (field f d1) (field f d2))) eqn:H12;
    try done;
    destruct (directed dir (value_compare (field f d2) (field f d3))) eqn:H23;
    try done.
  - apply directed_eq in H12. apply directed_eq in H23.
    rewrite H12, H23, value_compare_refl. destruct dir; apply IH.
  - apply directed_eq in H12. by rewrite H12, H23.
  - apply directed_eq in H23. by rewrite <- H23, H12.
  - by rewrite (directed_lt_trans dir _ _ _ H12 H23).
Qed.

#[global] Instance doc_le_trans spec : Transitive (doc_le spec).
Proof.
  intros d1 d2 d3. unfold doc_le.
  destruct (doc_compare spec d1 d2) eqn:H12; [| |done];
    destruct (doc_compare spec d2 d3) eqn:H23; try done; intros _ _.
  - by rewrite (doc_compare_eq_l _ _ _ _ H12), H23.
  - by rewrite (doc_compare_eq_l _ _ _ _ H12), H23.
  - by rewrite (doc_compare_eq_r _ _ _ _ H23), H12.
  - by rewrite (doc_compare_lt_trans _ _ _ _ H12 H23).
Qed.

#[global] Instance doc_le_total spec : Total (doc_le spec).
Proof.
  intros d1 d2. unfold doc_le. rewrite (doc_compare_antisym spec d1 d2).
  destruct (doc_compare spec d1 d2); simpl; auto.
Qed.

Lemma sort_docs_sorted (spec : sort_spec) (c : collection) :
  StronglySorted (doc_le spec) (sort_docs spec c).
Proof. apply StronglySorted_merge_sort; apply _. Qed.

Lemma sort_docs_perm (spec : sort_spec) (c : collection) :
  sort_docs spec c ≡ₚ c.
Proof. apply merge_sort_Permutation. Qed.

(** A sorted list stays sorted for a relation that the former implies on
    the elements of the list. *)
Lemma StronglySorted_impl {A} (R1 R2 : relation A) (P : A → Prop)
    (l : list A) :
  (∀ x y, P x → P y → R1 x y → R2 x y) →
  Forall P l → StronglySorted R1 l → StronglySorted R2 l.
Proof.
  intros HR HP. induction 1 as [|x l Hl IH Hx]; [constructor|].
  apply Forall_cons in HP as [Px Pl]. constructor; [by apply IH|].
  rewrite Forall_forall in Hx, Pl |- *. intros y Hy. apply HR; auto.
Qed.

(** ** Filtered reads (C3, C4) *)

Lemma matches_affordable (maxPrice : Qc) (d : doc) :
  matches [("price", Ops [(OpLt, VNum maxPrice)]);
           ("in_stock", Equals (VBool true))] d
  ↔ affordable_in_stock maxPrice d.
Proof.
  unfold matches, affordable_in_stock, price_below, in_stock, field,
    op_matches.
  simpl. rewrite !andb_true_r, andb_True, bool_decide_spec.
  assert (default VNull (d !! "in_stock") = VBool true
          ↔ d !! "in_stock" = Some (VBool true)) as ->.
  { destruct (d !! "in_stock"); simpl; split; congruence. }
  destruct (d !! "price") as [[]|]; simpl; try tauto.
  unfold op_matches; simpl. rewrite Qclt_alt.
  destruct (Qccompare q maxPrice); simpl; intuition congruence.
Qed.

(** C3: [findAffordableBooksInStock maxPrice] returns, in the order of the
    collection, exactly the records whose price is a number strictly below
    [maxPrice] and whose [in_stock] is [true]. A record priced [maxPrice] is
    not returned, and a record with [in_stock] false is never returned. *)
Theorem findAffordableBooksInStock_spec (maxPrice : Qc) (c : collection) :
  findAffordableBooksInStock maxPrice c
  = filter (affordable_in_stock maxPrice) c
  ∧ (∀ d, d !! "price" = Some (VNum maxPrice) →
          d ∉ findAffordableBooksInStock maxPrice c)
  ∧ (∀ d, d !! "in_stock" = Some (VBool false) →
          d ∉ findAffordableBooksInStock maxPrice c).
Proof.
  assert (Heq : findAffordableBooksInStock maxPrice c
                = filter (affordable_in_stock maxPrice) c).
  { apply list_filter_iff, matches_affordable. }
  split; [done|]. rewrite Heq.
  split; intros d Hd [[Hp Hs] _]%list_elem_of_filter.
  - unfold price_below in Hp. rewrite Hd in Hp.
    by apply Qclt_not_eq in Hp.
  - unfold in_stock in Hs. congruence.
Qed.

Lemma matches_year_between (s e : Qc) (d : doc) :
  matches [("published_year", Ops [(OpGte, VNum s); (OpLte, VNum e)])] d
  ↔ year_between s e d.
Proof.
  unfold matches, year_between, field, op_matches. simpl.
  rewrite !andb_true_r.
  destruct (d !! "published_year") as [[]|]; simpl; try done.
  unfold op_matches; simpl. rewrite andb_True, !Qcle_alt.
  rewrite (value_compare_antisym (VNum q) (VNum s) : Qccompare s q = _).
  simpl. destruct (Qccompare q s), (Qccompare q e); simpl;
    intuition congruence.
Qed.

Lemma year_le_of_doc_le (s e : Qc) (d1 d2 : doc) :
  year_between s e d1 → year_between s e d2 →
  doc_le [("published_year", Asc)] d1 d2 → year_le d1 d2.
Proof.
  unfold year_between, year_le, doc_le. simpl. unfold field.
  destruct (d1 !! "published_year") as [[]|]; try done.
  destruct (d2 !! "published_year") as [[]|]; try done.
  simpl. intros _ _. rewrite Qcle_alt. by destruct (Qccompare q q0).
Qed.

(** C4: [findBooksBetweenYears start end] returns exactly the records whose
    year is a number [y] with [start ≤ y ≤ end], each as often as the
    collection holds it, in an order in which the years never decrease. *)
Theorem findBooksBetweenYears_spec (startYear endYear : Qc)
    (c : collection) :
  findBooksBetweenYears startYear endYear c
    ≡ₚ filter (year_between startYear endYear) c
  ∧ Forall (year_between startYear endYear)
      (findBooksBetweenYears startYear endYear c)
  ∧ StronglySorted year_le (findBooksBetweenYears startYear endYear c).
Proof.
  assert (Hperm : findBooksBetweenYears startYear endYear c
                  ≡ₚ filter (year_between startYear endYear) c).
  { unfold findBooksBetweenYears. rewrite sort_docs_perm.
    unfold find. by rewrite (list_filter_iff _ _ _ (matches_year_between _ _)). }
  assert (Hall : Forall (year_between startYear endYear)
                   (findBooksBetweenYears startYear endYear c)).
  { rewrite Hperm. apply Forall_forall. by intros d [? _]%list_elem_of_filter. }
  split; [done|]. split; [done|].
  eapply StronglySorted_impl; [apply year_le_of_doc_le|done|].
  apply sort_docs_sorted.
Qed.

(** ** Grouping *)

Lemma add_to_group_cons (k : value) (d : doc) (k' : value)
    (ds : list doc) (tbl : list (value * list doc)) :
  add_to_group k d ((k', ds) :: tbl)
  = if bool_decide (k' = k) then (k', ds ++ [d]) :: tbl
    else (k', ds) :: add_to_group k d tbl.
Proof. done. Qed.

Lemma add_to_group_keys (k : value) (d : doc)
    (tbl : list (value * list doc)) :
  (add_to_group k d tbl).*1
  = if decide (k ∈ tbl.*1) then tbl.*1 else tbl.*1 ++ [k].
Proof.
  induction tbl as [|[k' ds] tbl IH].
  - rewrite decide_False; [done|]. apply not_elem_of_nil.
  - rewrite add_to_group_cons. case_bool_decide as Hk.
    + subst. rewrite decide_True; [done|]. rewrite fmap_cons. by left.
    + rewrite !fmap_cons, IH. cbn [fst]. destruct (decide (k ∈ tbl.*1)).
      * rewrite decide_True; [done|]. by right.
      * rewrite decide_False; [done|]. by intros [->|?]%elem_of_cons.
Qed.

Lemma add_to_group_elem (k : value) (d : doc)
    (tbl : list (value * list doc)) (k' : value) (ds' : list doc) :
  NoDup tbl.*1 →
  (k', ds') ∈ add_to_group k d tbl
  ↔ (k' ≠ k ∧ (k', ds') ∈ tbl)
    ∨ (k' = k ∧ ((∃ ds, (k, ds) ∈ tbl ∧ ds' = ds ++ [d])
                 ∨ ((k ∉ tbl.*1) ∧ ds' = [d]))).
Proof.
  induction tbl as [|[k0 ds0] tbl IH].
  - intros _. cbn [add_to_group]. rewrite list_elem_of_singleton. split.
    + intros [= -> ->]. right. split; [done|]. right.
      split; [apply not_elem_of_nil|done].
    + intros [[_ []%elem_of_nil]|[-> [(? & []%elem_of_nil & _)|[_ ->]]]].
      done.
  - rewrite add_to_group_cons, !fmap_cons. cbn [fst].
    intros [Hk0 Hnd]%NoDup_cons. specialize (IH Hnd).
    assert (Hfst : ∀ ds, (k0, ds) ∈ tbl → False).
    { intros ds Hin. apply Hk0. apply list_elem_of_fmap. by exists (k0, ds). }
    case_bool_decide as Hk; repeat setoid_rewrite elem_of_cons.
    + subst k0. split.
      * intros [Heq|Hin]; simplify_eq.
        -- right. split; [done|]. left. exists ds0. split; [by left|done].
        -- left. split; [|by right]. intros ->. by eapply Hfst.
      * intros [[Hne [Heq|Hin]]|[-> [(ds & [Heq|Hin] & ->)|[Hnk _]]]];
          simplify_eq.
        -- by right.
        -- by left.
        -- by destruct (Hfst ds).
        -- destruct Hnk. by left.
    + rewrite IH. clear IH. naive_solver.
Qed.

Lemma group_docs_snoc (id : operand) (c : collection) (d : doc) :
  group_docs id (c ++ [d])
  = add_to_group (group_key id d) d (group_docs id c).
Proof. unfold group_docs. by rewrite foldl_app. Qed.

Lemma group_docs_spec (id : operand) (c : collection) :
  NoDup (group_docs id c).*1
  ∧ (∀ k ds, (k, ds) ∈ group_docs id c →
       ds = filter (fun d => group_key id d = k) c ∧ ds ≠ [])
  ∧ (∀ d, d ∈ c → group_key id d ∈ (group_docs id c).*1).
Proof.
  induction c as [|d c (Hnd & Hbk & Hin)] using rev_ind.
  - split; [constructor|]. split; [by intros ?? ?%elem_of_nil|].
    by intros ? ?%elem_of_nil.
  - rewrite group_docs_snoc. set (k := group_key id d) in *.
    split; [|split].
    + rewrite add_to_group_keys. case_decide; [done|].
      apply NoDup_app. split; [done|]. split; [|apply NoDup_singleton].
      by intros x Hx ->%list_elem_of_singleton.
    + intros k' ds'. rewrite add_to_group_elem by done.
      rewrite filter_app.
      intros [[Hne Hel]|[-> [(ds & Hel & ->)|[Hnk ->]]]].
      * destruct (Hbk _ _ Hel) as [-> Hnil]. split; [|done].
        rewrite (filter_cons_False _ d) by (fold k; congruence).
        by rewrite filter_nil, app_nil_r.
      * destruct (Hbk _ _ Hel) as [-> Hnil].
        rewrite filter_cons_True by done. rewrite filter_nil.
        split; [done|]. by destruct (filter _ c).
      * rewrite filter_cons_True by done. rewrite filter_nil.
        split; [|done].
        destruct (filter (fun d0 => group_key id d0 = k) c) as [|x l] eqn:E;
          [done|].
        assert (Hx : x ∈ filter (fun d0 => group_key id d0 = k) c)
          by (rewrite E; left).
        apply list_elem_of_filter in Hx as [Hkx Hxc].
        destruct Hnk. rewrite <- Hkx. by apply Hin.
    + intros d' Hd'. rewrite add_to_group_keys.
      apply elem_of_app in Hd' as [Hd'|Hd'].
      * case_decide; [by apply Hin|]. apply elem_of_app. left. by apply Hin.
      * apply list_elem_of_singleton in Hd' as ->. fold k.
        case_decide; [done|]. apply elem_of_app. right. by left.
Qed.

(** ** [$mod] on integers *)




(** ** Buckets, keys and sorted groups *)

Lemma group_keys_elem (id : operand) (c : collection) (k : value) :
  k ∈ (group_docs id c).*1 ↔ ∃ d, d ∈ c ∧ group_key id d = k.
Proof.
  destruct (group_docs_spec id c) as (_ & Hbk & Hin). split.
  - intros ([k' ds] & -> & Hel)%list_elem_of_fmap. simpl.
    destruct (Hbk _ _ Hel) as [Hds Hne].
    destruct ds as [|d ds]; [done|]. exists d.
    assert (Hd : d ∈ d :: ds) by left.
    rewrite Hds in Hd. apply list_elem_of_filter in Hd as [? ?]. done.
  - intros (d & Hd & <-). by apply Hin.
Qed.

Lemma StronglySorted_fmap_inv {A B} (f : A → B) (R : relation B)
    (l : list A) :
  StronglySorted R (f <$> l) → StronglySorted (fun x y => R (f x) (f y)) l.
Proof.
  induction l as [|x l IH]; [constructor|].
  rewrite fmap_cons. intros [Hl Hx]%StronglySorted_inv.
  constructor; [by apply IH|].
  rewrite Forall_fmap in Hx. done.
Qed.

Lemma sorted_fmap_inv {A} (f : A → doc) (spec : sort_spec) (l : list A) :
  ∃ l', sort_docs spec (f <$> l) = f <$> l' ∧ l' ≡ₚ l
        ∧ StronglySorted (fun x y => doc_le spec (f x) (f y)) l'.
Proof.
  destruct (Permutation_map_inv f l (l1 := sort_docs spec (f <$> l)))
    as (l' & Heq & Hperm); [apply sort_docs_perm|].
  exists l'. split; [done|]. split; [done|].
  apply StronglySorted_fmap_inv. change (map f l') with (f <$> l') in Heq.
  rewrite <- Heq. apply sort_docs_sorted.
Qed.

(** ** Average price by genre (C6) *)

Lemma numeric_prices (ds : list doc) :
  Forall (fun d => is_num (d !! "price")) ds →
  numeric_values (Field "price") ds = price_num <$> ds.
Proof.
  induction 1 as [|d ds Hd _ IH]; [done|].
  rewrite fmap_cons, <- IH. unfold numeric_values, price_num. simpl.
  by destruct (d !! "price") as [[]|].
Qed.

Lemma genre_buckets (c : collection) (g : value) (ds : list doc) :
  (g, ds) ∈ group_docs (Field "genre") c →
  ds = filter (fun d => field "genre" d = g) c ∧ ds ≠ [].
Proof. intros H. by apply (group_docs_spec (Field "genre") c). Qed.

(** *** The error of rounding to a double *)

Lemma round_even_error (q : Q) :
  (Qabs (inject_Z (round_even q) - q) <= 1 # 2)%Q.
Proof.
  unfold round_even.
  pose proof (Qfloor_le q) as Hlo. pose proof (Qlt_floor q) as Hhi.
  rewrite inject_Z_plus in Hhi. change (inject_Z 1) with 1%Q in Hhi.
  apply Qabs_Qle_condition.
  destruct (q - inject_Z (Qfloor q) ?= 1 # 2)%Q eqn:Hc.
  - apply Qeq_alt in Hc.
    destruct (Z.even (Qfloor q));
      rewrite ?inject_Z_plus; change (inject_Z 1) with 1%Q; lra.
  - apply Qlt_alt in Hc. lra.
  - apply Qgt_alt in Hc. rewrite inject_Z_plus.
    change (inject_Z 1) with 1%Q. lra.
Qed.

Lemma pow2_pos (e : Z) : (0 < 2 ^ e)%Q.
Proof. by apply Qpower_0_lt. Qed.

Lemma ilog2_lower (q : Q) : (0 < q)%Q → (2 ^ ilog2 q <= q)%Q.
Proof.
  intros Hq. unfold ilog2.
  destruct (Qle_bool _ q) eqn:Hb; [by apply Qle_bool_iff|]. clear Hb.
  destruct q as [n d]. cbn [Qnum Qden].
  assert (Hn : 0 < n) by (unfold Qlt in Hq; simpl in Hq; lia).
  destruct (Z.log2_spec n Hn) as [Hn1 _].
  destruct (Z.log2_spec (Z.pos d) eq_refl) as [_ Hd2].
  pose proof (Z.log2_nonneg n) as Hln.
  pose proof (Z.log2_nonneg (Z.pos d)) as Hld.
  replace (Z.log2 n - Z.log2 (Z.pos d) - 1)
    with (Z.log2 n - Z.succ (Z.log2 (Z.pos d))) by lia.
  rewrite Qpower_minus by done.
  change 2%Q with (inject_Z 2).
  rewrite <- !Zpower_Qpower by lia.
  set (P := 2 ^ Z.log2 n) in *.
  set (R := 2 ^ Z.succ (Z.log2 (Z.pos d))) in *.
  apply Qle_shift_div_r.
  - change 0%Q with (inject_Z 0). rewrite <- Zlt_Qlt. lia.
  - unfold Qle, Qmult, inject_Z. simpl. nia.
Qed.

Lemma round53_error (q : Q) :
  (Qabs (round53 q - q) <= (1 # 2 ^ 53) * Qabs q)%Q.
Proof.
  unfold round53. destruct (Qeq_bool q 0) eqn:Hz.
  - apply Qeq_bool_eq in Hz. rewrite Hz. done.
  - apply Qeq_bool_neq in Hz.
    assert (Hpos : (0 < Qabs q)%Q).
    { destruct (Qlt_le_dec 0 (Qabs q)) as [|Hle]; [done|].
      apply Qabs_Qle_condition in Hle. exfalso. apply Hz. lra. }
    pose proof (ilog2_lower _ Hpos) as He.
    set (e := ilog2 (Qabs q)) in *. cbv zeta.
    set (s := 52 - e).
    pose proof (round_even_error (q * 2 ^ s)) as Hr.
    set (r := inject_Z (round_even (q * 2 ^ s))) in *.
    assert (Hs : (2 ^ s * 2 ^ (- s) == 1)%Q).
    { rewrite <- Qpower_plus by done. by rewrite Z.add_opp_diag_r. }
    assert (Heq : (r * 2 ^ (- s) - q == (r - q * 2 ^ s) * 2 ^ (- s))%Q).
    { transitivity (r * 2 ^ (- s) - q * (2 ^ s * 2 ^ (- s)))%Q.
      - rewrite Hs. ring.
      - ring. }
    rewrite Heq, Qabs_Qmult.
    rewrite (Qabs_pos (2 ^ (- s))) by apply Qlt_le_weak, pow2_pos.
    assert (Hsplit : (2 ^ (- s) == 2 ^ e * 2 ^ (-52))%Q).
    { rewrite <- Qpower_plus by done.
      by replace (- s) with (e + -52) by lia. }
    rewrite Hsplit.
    pose proof (pow2_pos e) as Hpe.
    assert (Hc : ((1 # 2) * 2 ^ (-52) == 1 # 2 ^ 53)%Q) by done.
    rewrite <- Hc.
    assert (Hpe52 : (0 < 2 ^ e * 2 ^ (-52))%Q).
    { apply Qmult_lt_0_compat; [done|apply pow2_pos]. }
    set (t := (2 ^ (-52))%Q) in *.
    assert (Ht : (0 < t)%Q) by apply pow2_pos.
    nra.
Qed.

Lemma double_error (q : Qc) :
  (Qcabs.Qcabs (double q - q) ≤ eps * Qcabs.Qcabs q)%Qc.
Proof.
  unfold Qcle, double, eps. simpl. rewrite !Qred_correct.
  apply round53_error.
Qed.

Lemma near_of_two_roundings (a m m' : Qc) :
  (Qcabs.Qcabs (m' - m) ≤ eps * Qcabs.Qcabs m)%Qc →
  (Qcabs.Qcabs (a - m') ≤ eps * Qcabs.Qcabs m')%Qc →
  near a m.
Proof.
  intros H1 H2. unfold near.
  assert (He : (Q2Qc 0 ≤ eps)%Qc) by done.
  assert (Hm : (Q2Qc 0 ≤ Qcabs.Qcabs m)%Qc) by apply Qcabs.Qcabs_nonneg.
  assert (H3 : (Qcabs.Qcabs m' ≤ eps * Qcabs.Qcabs m + Qcabs.Qcabs m)%Qc).
  { replace m' with (m' - m + m)%Qc at 1 by ring.
    eapply Qcle_trans; [apply Qcabs.Qcabs_triangle|].
    by apply Qcplus_le_compat; [|apply Qcle_refl]. }
  replace (a - m)%Qc with (a - m' + (m' - m))%Qc by ring.
  eapply Qcle_trans; [apply Qcabs.Qcabs_triangle|].
  apply (Qcle_trans _
    ((eps * Qcabs.Qcabs m + Qcabs.Qcabs m) * eps + eps * Qcabs.Qcabs m)%Qc).
  - apply Qcplus_le_compat; [|done].
    eapply Qcle_trans; [exact H2|].
    rewrite (Qcmult_comm eps (Qcabs.Qcabs m')).
    by apply Qcmult_le_compat_r.
  - replace ((eps * Qcabs.Qcabs m + Qcabs.Qcabs m) * eps
             + eps * Qcabs.Qcabs m)%Qc
      with ((eps * eps + (eps + eps)) * Qcabs.Qcabs m)%Qc by ring.
    apply Qcmult_le_compat_r; [by vm_compute|done].
Qed.

Lemma average_near (l : list Qc) : near (average l) (mean l).
Proof.
  unfold average, mean.
  set (S := total l). set (n := Qc_of_Z (Z.of_nat (length l))).
  apply (near_of_two_roundings _ _ (double S / n)%Qc);
    [|apply double_error].
  replace (double S / n - S / n)%Qc with ((double S - S) / n)%Qc
    by (unfold Qcdiv; ring).
  unfold Qcdiv. rewrite !Qcabs.Qcabs_Qcmult, Qcmult_assoc.
  apply Qcmult_le_compat_r; [apply double_error|apply Qcabs.Qcabs_nonneg].
Qed.

(** *** The groups and their order *)

Lemma Qc_sum_total (l : list Qc) : Qc_sum l = total l.
Proof.
  induction l as [|x l IH]; [done|]. cbn [Qc_sum foldr total].
  by rewrite <- IH.
Qed.

Lemma average_acc (ds : list doc) :
  ds ≠ [] →
  Forall (fun d => is_num (d !! "price")) ds →
  run_acc (Avg (Field "price")) ds = VNum (average (price_num <$> ds)).
Proof.
  intros Hne Hds. unfold run_acc. rewrite numeric_prices by done.
  destruct ds as [|d ds]; [done|]. rewrite fmap_cons.
  unfold average. by rewrite Qc_sum_total.
Qed.

Lemma average_singleton (p : Qc) : double p = p → average [p] = p.
Proof.
  intros Hp. unfold average. cbn [total length].
  change (Z.of_nat 1) with 1. rewrite Z2Qc_inj_0, Z2Qc_inj_1.
  rewrite Qcplus_0_r, Hp.
  replace (p / 1)%Qc with p; [done|].
  unfold Qcdiv. replace (/ 1)%Qc with 1%Qc by by apply Qc_is_canon.
  by rewrite Qcmult_1_r.
Qed.

Lemma ordinary_price_double (d : doc) :
  ordinary_price d → double (price_num d) = price_num d.
Proof.
  unfold ordinary_price, price_num.
  destruct (d !! "price") as [[]|]; try done. by intros [? _].
Qed.

Lemma ordinary_price_num (d : doc) : ordinary_price d → is_num (d !! "price").
Proof. unfold ordinary_price. by destruct (d !! "price") as [[]|]. Qed.

Lemma average_group_out (c : collection) :
  Forall (fun d => is_num (d !! "price")) c →
  group_out [("averagePrice", Avg (Field "price"))]
    <$> group_docs (Field "genre") c
  = (fun g => {[ "_id" := g;
                 "averagePrice" := VNum (average (genre_prices g c)) ]})
    <$> (group_docs (Field "genre") c).*1.
Proof.
  intros Hc. rewrite <- list_fmap_compose. apply list_fmap_ext.
  intros i [g ds] Hi. apply list_elem_of_lookup_2, genre_buckets in Hi.
  destruct Hi as [Hds Hne]. unfold group_out, genre_prices.
  cbn [foldr fst snd compose]. rewrite <- Hds, average_acc; [|done|].
  - by rewrite <- !insert_empty, (insert_insert_ne _ "_id") by done.
  - rewrite Hds. apply Forall_forall. intros d [_ Hd]%list_elem_of_filter.
    by apply (proj1 (Forall_forall _ _) Hc).
Qed.

Lemma average_ge_of_doc_le (a b : Qc) (g1 g2 : value) :
  doc_le [("averagePrice", Desc)]
    {[ "_id" := g1; "averagePrice" := VNum a ]}
    {[ "_id" := g2; "averagePrice" := VNum b ]} →
  (b ≤ a)%Qc.
Proof.
  unfold doc_le. cbn [doc_compare]. unfold field.
  rewrite !lookup_insert_ne, !lookup_singleton_eq by done. simpl.
  rewrite Qcle_alt.
  rewrite (value_compare_antisym (VNum a) (VNum b) : Qccompare b a = _).
  simpl. by destruct (Qccompare a b).
Qed.

(** C6, as stated, fails: the [averagePrice] of a group is not always the
    arithmetic mean of its prices. The store computes in doubles, and the
    mean of two doubles need not be a double. Here the two Dystopian books
    of the script's own data, at 10.99 and 11.5: the store returns the
    double that the log of [queries.js] prints as 11.245000000000001,
    which is above the mean of the two prices as they are stored, and
    above 11.245, the mean of the two prices as they are written. *)
Lemma average_price_is_rounded :
  ∃ a,
    getAveragePriceByGenre
      [stored 1 nineteen_eighty_four; stored 2 brave_new_world]
    = Ok [{[ "_id" := VStr "Dystopian"; "averagePrice" := VNum a ]}]
    ∧ this a = (3165186113111327 # 281474976710656)%Q
    ∧ (mean [decimal 1099 2; decimal 115 1] < a)%Qc
    ∧ (Q2Qc (11245 # 1000) < a)%Qc.
Proof.
  exists (average [decimal 1099 2; decimal 115 1]).
  split; [|split; [|split]]; [|done..].
  unfold getAveragePriceByGenre. cbn [aggregate run_stage mbind res_bind].
  rewrite average_group_out by (repeat constructor).
  done.
Qed.

(** C6: on a collection of fewer than [2^20] records whose prices are
    doubles, zero or between [2^-1000] and [2^1000],
    [getAveragePriceByGenre] returns one group for each genre that some
    record has, and for no other genre; the [averagePrice] of the group of
    [g] is the arithmetic mean of the prices of all the records of genre
    [g] up to the rounding of doubles, a relative error of [3 * 2^-53] at
    most, and it is the price itself when the genre has one record; and
    the groups come in descending order of the [averagePrice] returned.
    The bounds on the prices and on their number keep the sums and the
    quotients in the range of normal doubles, where the store rounds as
    the model does. *)
Theorem average_price_by_genre (c : collection) :
  Forall ordinary_price c →
  Z.of_nat (length c) < 2 ^ 20 →
  ∃ genres (avg : value → Qc),
    getAveragePriceByGenre c
    = Ok ((fun g => {[ "_id" := g; "averagePrice" := VNum (avg g) ]})
          <$> genres)
    ∧ NoDup genres
    ∧ (∀ g, g ∈ genres ↔ ∃ d, d ∈ c ∧ field "genre" d = g)
    ∧ (∀ g, g ∈ genres → near (avg g) (mean (genre_prices g c)))
    ∧ (∀ g p, genre_prices g c = [p] → avg g = p)
    ∧ StronglySorted (fun g1 g2 => (avg g2 ≤ avg g1)%Qc) genres.
Proof.
  intros Hc _. unfold getAveragePriceByGenre. cbn [aggregate run_stage].
  rewrite average_group_out
    by (eapply Forall_impl; [exact Hc|apply ordinary_price_num]).
  destruct (sorted_fmap_inv
    (fun g => {[ "_id" := g;
                 "averagePrice" := VNum (average (genre_prices g c)) ]})
    [("averagePrice", Desc)] (group_docs (Field "genre") c).*1)
    as (genres & Heq & Hperm & Hsorted).
  exists genres, (fun g => average (genre_prices g c)).
  split; [by rewrite <- Heq|].
  destruct (group_docs_spec (Field "genre") c) as (Hnd & _ & _).
  split; [by rewrite Hperm|]. split; [|split; [|split]].
  - intros g. rewrite Hperm. apply group_keys_elem.
  - intros g _. apply average_near.
  - intros g p Hp. rewrite Hp. apply average_singleton.
    assert (Hin : p ∈ genre_prices g c) by (rewrite Hp; by left).
    apply list_elem_of_fmap in Hin as (d & -> & [_ Hd]%list_elem_of_filter).
    by apply ordinary_price_double, (proj1 (Forall_forall _ _) Hc).
  - refine (StronglySorted_impl _ _ (fun _ => True) _ _ _ Hsorted);
      [|by apply Forall_true].
    intros g1 g2 _ _. apply average_ge_of_doc_le.
Qed.

(** ** Books by decade (C7) *)

Lemma mapM_Ok {A B} (f : A → res B) (g : A → B) (l : list A) :
  Forall (fun x => f x = Ok (g x)) l → mapM f l = Ok (g <$> l).
Proof.
  induction 1 as [|x l Hx _ IH]; [done|].
  cbn [mapM]. fold (mapM f l). rewrite Hx, IH. done.
Qed.


Lemma length_filter_fmap {A B} (f : A → B) (P : B → Prop)
    `{!∀ y, Decision (P y)} (l : list A) :
  length (filter P (f <$> l)) = length (filter (fun x => P (f x)) l).
Proof.
  induction l as [|x l IH]; [done|].
  rewrite fmap_cons, !filter_cons. case_decide; simpl; by rewrite IH.
Qed.


Lemma Qc_sum_replicate (n : nat) :
  Qc_sum (replicate n (Qc_of_Z 1)) = Qc_of_Z (Z.of_nat n).
Proof.
  induction n as [|n IH]; [done|].
  cbn [replicate Qc_sum foldr]. fold (Qc_sum (replicate n (Qc_of_Z 1))).
  rewrite IH, <- Z2Qc_inj_add. f_equal. lia.
Qed.

Lemma count_acc (ds : list doc) :
  run_acc (Sum (Const (num_of_Z 1))) ds = num_of_Z (Z.of_nat (length ds)).
Proof.
  unfold run_acc, num_of_Z. f_equal. rewrite <- Qc_sum_replicate. f_equal.
  unfold numeric_values. induction ds as [|d ds IH]; [done|].
  cbn. by rewrite <- IH.
Qed.


Lemma group_docs_sizes (id : operand) (c : collection) :
  sum_list_with (fun b => length b.2) (group_docs id c) = length c.
Proof.
  assert (Hadd : ∀ k d tbl,
    sum_list_with (fun b : value * list doc => length b.2)
      (add_to_group k d tbl)
    = S (sum_list_with (fun b => length b.2) tbl)).
  { intros k d tbl. induction tbl as [|[k' ds] tbl IH]; [done|].
    rewrite add_to_group_cons. case_bool_decide; cbn [sum_list_with snd].
    - rewrite length_app. simpl. lia.
    - rewrite IH. lia. }
  induction c as [|d c IH] using rev_ind; [done|].
  rewrite group_docs_snoc, Hadd, IH, length_app. simpl. lia.
Qed.


Lemma StronglySorted_NoDup {A} (R : relation A) (l : list A) :
  StronglySorted R l → NoDup l →
  StronglySorted (fun x y => R x y ∧ x ≠ y) l.
Proof.
  induction 1 as [|x l Hl IH Hx]; [constructor|].
  intros [Hnx Hnd]%NoDup_cons. constructor; [by apply IH|].
  rewrite Forall_forall in Hx |- *. intros y Hy. split; [by apply Hx|].
  by intros ->.
Qed.


Lemma sum_list_with_fmap {A B} (h : A → B) (f : B → nat) (l : list A) :
  sum_list_with f (h <$> l) = sum_list_with (fun x => f (h x)) l.
Proof.
  induction l as [|x l IH]; [done|].
  rewrite fmap_cons. cbn [sum_list_with]. by rewrite IH.
Qed.

Lemma sum_list_with_ext_in {A} (f g : A → nat) (l : list A) :
  Forall (fun x => f x = g x) l → sum_list_with f l = sum_list_with g l.
Proof.
  induction 1 as [|x l Hx _ IH]; [done|].
  cbn [sum_list_with]. by rewrite Hx, IH.
Qed.



(** ** Most expensive book by genre (C8) *)

Lemma StronglySorted_filter {A} (R : relation A) (P : A → Prop)
    `{!∀ x, Decision (P x)} (l : list A) :
  StronglySorted R l → StronglySorted R (filter P l).
Proof.
  induction 1 as [|x l Hl IH Hx]; [constructor|].
  rewrite filter_cons. case_decide; [|done]. constructor; [done|].
  rewrite Forall_forall in Hx |- *.
  intros y [_ Hy]%list_elem_of_filter. by apply Hx.
Qed.

Lemma price_le_of_doc_le (t d : doc) :
  is_num (t !! "price") → is_num (d !! "price") →
  field "genre" d = field "genre" t →
  doc_le [("genre", Asc); ("price", Desc)] t d →
  (price_num d ≤ price_num t)%Qc.
Proof.
  unfold doc_le, price_num. cbn [doc_compare directed].
  intros Ht Hd ->. rewrite value_compare_refl. unfold field.
  destruct (t !! "price") as [[| pt | | |]|]; try done.
  destruct (d !! "price") as [[| pd | | |]|]; try done.
  simpl. rewrite Qcle_alt.
  rewrite (value_compare_antisym (VNum pt) (VNum pd) : Qccompare pd pt = _).
  simpl. by destruct (Qccompare pt pd).
Qed.

(** The first record of a bucket of the sorted collection is a record of
    the collection, of the genre of the bucket, and no record of that genre
    costs more. *)
Lemma most_expensive_bucket (c : collection) (g : value) (ds : list doc) :
  Forall (fun d => is_num (d !! "price")) c →
  (g, ds) ∈ group_docs (Field "genre")
              (sort_docs [("genre", Asc); ("price", Desc)] c) →
  ∃ t ds', ds = t :: ds' ∧ t ∈ c ∧ field "genre" t = g
    ∧ ∀ d, d ∈ c → field "genre" d = g → (price_num d ≤ price_num t)%Qc.
Proof.
  intros Hc Hel. rewrite Forall_forall in Hc.
  apply genre_buckets in Hel as [Hds Hne].
  destruct ds as [|t ds']; [done|]. exists t, ds'. split; [done|].
  assert (Ht : t ∈ t :: ds') by left. rewrite Hds in Ht.
  apply list_elem_of_filter in Ht as [Hg Ht]. rewrite sort_docs_perm in Ht.
  split; [done|]. split; [done|]. intros d Hd Hdg.
  assert (Hin : d ∈ t :: ds').
  { rewrite Hds. apply list_elem_of_filter. by rewrite sort_docs_perm. }
  assert (Hs : StronglySorted (doc_le [("genre", Asc); ("price", Desc)])
                 (t :: ds')).
  { rewrite Hds. apply StronglySorted_filter, sort_docs_sorted. }
  apply StronglySorted_inv in Hs as [_ Hs]. rewrite Forall_forall in Hs.
  apply elem_of_cons in Hin as [->|Hin]; [done|].
  apply price_le_of_doc_le; auto. congruence.
Qed.

(** C8: on a collection whose records all have a numeric price,
    [getMostExpensiveByGenre] returns one entry for each genre that some
    record has; the entry of a genre has the genre, title, author and price
    of one record [t] of the collection, and no record of that genre has a
    higher price than [t]. *)
Theorem most_expensive_by_genre (c : collection) :
  Forall (fun d => is_num (d !! "price")) c →
  ∃ tops,
    getMostExpensiveByGenre c
    = Ok ((fun t => {[ "_id" := field "genre" t;
                       "title" := field "title" t;
                       "author" := field "author" t;
                       "price" := field "price" t ]}) <$> tops)
    ∧ NoDup (field "genre" <$> tops)
    ∧ (∀ d, d ∈ c → field "genre" d ∈ field "genre" <$> tops)
    ∧ Forall (fun t => t ∈ c
                ∧ ∀ d, d ∈ c → field "genre" d = field "genre" t →
                       (price_num d ≤ price_num t)%Qc) tops.
Proof.
  intros Hc. unfold getMostExpensiveByGenre. cbn [aggregate run_stage].
  cbn [mbind res_bind].
  set (tbl := group_docs (Field "genre")
                (sort_docs [("genre", Asc); ("price", Desc)] c)).
  exists ((fun b => default ∅ (head b.2)) <$> tbl).
  assert (Hb : ∀ b, b ∈ tbl →
    ∃ t ds', b = (field "genre" t, t :: ds') ∧ t ∈ c
      ∧ ∀ d, d ∈ c → field "genre" d = field "genre" t →
             (price_num d ≤ price_num t)%Qc).
  { intros [g ds] (t & ds' & -> & Ht & <- & Hmax)%most_expensive_bucket;
      [|done]. by exists t, ds'. }
  destruct (group_docs_spec (Field "genre")
              (sort_docs [("genre", Asc); ("price", Desc)] c))
    as (Hnd & _ & Hin). fold tbl in Hnd, Hin.
  assert (Hkeys : field "genre" <$> ((fun b => default ∅ (head b.2)) <$> tbl)
                  = tbl.*1).
  { rewrite <- list_fmap_compose. apply list_fmap_ext. intros i b Hi.
    apply list_elem_of_lookup_2, Hb in Hi as (t & ds' & -> & _). done. }
  split; [|split; [|split]].
  - f_equal. rewrite <- list_fmap_compose. apply list_fmap_ext.
    intros i b Hi.
    apply list_elem_of_lookup_2, Hb in Hi as (t & ds' & -> & _).
    unfold group_out. cbn [foldr fst snd compose run_acc head default eval_operand].
    unfold field, id. rewrite <- !insert_empty.
    rewrite (insert_insert_ne _ "price" "_id") by done.
    rewrite (insert_insert_ne _ "author" "_id") by done.
    by rewrite (insert_insert_ne _ "title" "_id") by done.
  - rewrite Hkeys. done.
  - intros d Hd. rewrite Hkeys. apply Hin. by rewrite sort_docs_perm.
  - apply Forall_forall. intros t (b & -> & Hel)%list_elem_of_fmap.
    apply Hb in Hel as (t & ds' & -> & Ht & Hmax). done.
Qed.

(** ** The theorems on the sample collection *)

Lemma average_price_by_genre_witness :
  ∃ genres (avg : value → Qc),
    getAveragePriceByGenre books
    = Ok ((fun g => {[ "_id" := g; "averagePrice" := VNum (avg g) ]})
          <$> genres)
    ∧ NoDup genres
    ∧ (∀ g, g ∈ genres ↔ ∃ d, d ∈ books ∧ field "genre" d = g)
    ∧ (∀ g, g ∈ genres → near (avg g) (mean (genre_prices g books)))
    ∧ (∀ g p, genre_prices g books = [p] → avg g = p)
    ∧ StronglySorted (fun g1 g2 => (avg g2 ≤ avg g1)%Qc) genres.
Proof.
  apply (average_price_by_genre books); [|reflexivity].
  apply (bool_decide_unpack _). vm_compute. exact I.
Defined.


Lemma most_expensive_by_genre_witness :
  ∃ tops,
    getMostExpensiveByGenre books
    = Ok ((fun t => {[ "_id" := field "genre" t;
                       "title" := field "title" t;
                       "author" := field "author" t;
                       "price" := field "price" t ]}) <$> tops)
    ∧ NoDup (field "genre" <$> tops)
    ∧ (∀ d, d ∈ books → field "genre" d ∈ field "genre" <$> tops)
    ∧ Forall (fun t => t ∈ books
                ∧ ∀ d, d ∈ books → field "genre" d = field "genre" t →
                       (price_num d ≤ price_num t)%Qc) tops.
Proof. apply (most_expensive_by_genre books). repeat constructor. Defined.

(** The runs of the script on the sample collection. *)

Example affordable_in_stock_books :
  rows ["title"; "price"] (Ok (findAffordableBooksInStock (Qc_of_Z 15) books))
  = [[Str "1984"; Num (this (decimal 1099 2))];
     [Str "The Hobbit"; Num (this (decimal 1499 2))]].
Proof. reflexivity. Qed.

Example between_years_books :
  rows ["title"; "published_year"]
       (Ok (findBooksBetweenYears (Qc_of_Z 1933) (Qc_of_Z 1949) books))
  = [[Str "The Hobbit"; Num 1937]; [Str "Animal Farm"; Num 1945];
     [Str "1984"; Num 1949]].
Proof. reflexivity. Qed.

(** The average of the Dystopian books is the double that the log of
    [queries.js] prints as 11.245000000000001. *)
Example average_price_books :
  rows ["_id"; "averagePrice"] (getAveragePriceByGenre books)
  = [[Str "Fantasy"; Num (this (decimal 1499 2))];
     [Str "Dystopian"; Num (3165186113111327 # 281474976710656)];
     [Str "Political Satire"; Num (17 # 2)]].
Proof. reflexivity. Qed.

Example decades_books :
  rows ["_id"; "count"] (getBooksByDecade books)
  = [[Num 1930; Num 2]; [Num 1940; Num 2]].
Proof. reflexivity. Qed.

Example most_expensive_books :
  rows ["_id"; "title"; "price"] (getMostExpensiveByGenre books)
  = [[Str "Dystopian"; Str "Brave New World"; Num (23 # 2)];
     [Str "Fantasy"; Str "The Hobbit"; Num (this (decimal 1499 2))];
     [Str "Political Satire"; Str "Animal Farm"; Num (17 # 2)]].
Proof. reflexivity. Qed.

(** ** Reads and writes by title, on any collection *)

Lemma findOne_skip (q : filter_doc) (c1 c2 : collection) (x : doc) :
  matches q x = false → findOne q (c1 ++ x :: c2) = findOne q (c1 ++ c2).
Proof.
  intros Hx. unfold findOne. induction c1 as [|d c1 IH]; simpl.
  - by rewrite Hx.
  - by rewrite IH.
Qed.

Lemma findOne_swap (q : filter_doc) (c1 c2 : collection) (x y : doc) :
  matches q x = false → matches q y = false →
  findOne q (c1 ++ x :: c2) = findOne q (c1 ++ y :: c2).
Proof. intros Hx Hy. by rewrite !findOne_skip. Qed.

Lemma other_title (t t' : string) (d : doc) :
  t' ≠ t → d !! "title" = Some (VStr t) →
  matches [("title", Equals (VStr t'))] d = false.
Proof.
  intros Hne Hd. rewrite matches_title, bool_decide_eq_false, Hd. congruence.
Qed.


Lemma insertOne_ids (r : doc) (c c' : collection) (ir : InsertOneResult) :
  insertOne r c = Ok (ir, c') →
  ids c' = ids c ++ [Some (insertedId ir)] ∧ Some (insertedId ir) ∉ ids c.
Proof.
  assert (Hnew : ids (c ++ [<["_id" := fresh_oid c]> r])
                 = ids c ++ [Some (fresh_oid c)]
                 ∧ Some (fresh_oid c) ∉ ids c).
  { unfold ids. rewrite fmap_app. simpl. rewrite lookup_insert_eq.
    split; [done|]. intros (d & Hd & Hin)%list_elem_of_fmap.
    by apply (fresh_oid_fresh c d). }
  unfold insertOne. destruct (r !! "_id") as [id|] eqn:Hr;
    [|by intros [= <- <-]].
  assert (Hold : (if existsb (fun d' => bool_decide (d' !! "_id" = Some id)) c
                  then Err (DuplicateKey id)
                  else Ok ({| acknowledged := true; insertedId := id |},
                           c ++ [r])) = Ok (ir, c') →
                 ids c' = ids c ++ [Some (insertedId ir)]
                 ∧ Some (insertedId ir) ∉ ids c).
  { destruct (existsb _ c) eqn:Hex; [done|]. intros [= <- <-].
    unfold ids. rewrite fmap_app. simpl. rewrite Hr. split; [done|].
    intros (d & Hd & Hin)%list_elem_of_fmap.
    assert (existsb (fun d' => bool_decide (d' !! "_id" = Some id)) c
            = true); [|congruence].
    apply existsb_exists. exists d. split; [by apply list_elem_of_In|].
    by apply bool_decide_eq_true. }
  destruct id; try exact Hold. by intros [= <- <-].
Qed.

Lemma updateOne_price_ids (t : string) (v : value) (c c' : collection)
    (r : UpdateResult) :
  updateBookPrice t v c = Ok (r, c') → ids c' = ids c.
Proof.
  destruct (readBook t c) as [d|] eqn:Hr.
  - apply readBook_split in Hr as (c1 & c2 & -> & Hd & Hc1).
    rewrite updateBookPrice_first by done. intros [= <- <-].
    unfold ids. rewrite !fmap_app, !fmap_cons. by rewrite lookup_insert_ne.
  - apply readBook_None, title_Forall in Hr. unfold updateBookPrice.
    rewrite updateOne_no_match by done. by intros [= <- <-].
Qed.

Lemma deleteBook_split (t : string) (c : collection) :
  match readBook t c with
  | Some d =>
      ∃ c1 c2, c = c1 ++ d :: c2
        ∧ d !! "title" = Some (VStr t)
        ∧ Forall (fun x => x !! "title" ≠ Some (VStr t)) c1
        ∧ deleteBook t c = ({| deletedCount := 1 |}, c1 ++ c2)
  | None => deleteBook t c = ({| deletedCount := 0 |}, c)
  end.
Proof.
  destruct (readBook t c) as [d|] eqn:Hr.
  - apply readBook_split in Hr as (c1 & c2 & -> & Hd & Hc1).
    exists c1, c2. split; [done|]. split; [done|]. split; [done|].
    apply deleteOne_first_match; [by apply title_Forall|].
    by rewrite matches_title, bool_decide_eq_true.
  - apply readBook_None, title_Forall in Hr. by apply deleteOne_no_match.
Qed.

(** X3: the three writes keep the identifiers of a collection distinct:
    when no two records share an [_id], none do after [createBook]; an
    [updateBookPrice] leaves the identifiers as they are, record by
    record; and none do after [deleteBook]. *)
Theorem unique_ids_kept (c : collection) :
  NoDup (ids c) →
  (∀ r ir c', createBook r c = Ok (ir, c') → NoDup (ids c'))
  ∧ (∀ t v r c', updateBookPrice t v c = Ok (r, c') → ids c' = ids c)
  ∧ (∀ t, NoDup (ids (deleteBook t c).2)).
Proof.
  intros Hnd. split; [|split].
  - intros r ir c' [-> Hfresh]%insertOne_ids.
    apply NoDup_app. split; [done|]. split; [|apply NoDup_singleton].
    by intros x Hx ->%list_elem_of_singleton.
  - intros t v r c'. apply updateOne_price_ids.
  - intros t. generalize (deleteBook_split t c).
    destruct (readBook t c) as [d|].
    + intros (c1 & c2 & -> & _ & _ & ->). simpl. unfold ids in *.
      rewrite fmap_app in *. rewrite fmap_cons in Hnd.
      apply NoDup_app in Hnd as (H1 & H2 & H3).
      apply NoDup_cons in H3 as [_ H3].
      apply NoDup_app. split; [done|]. split; [|done].
      intros x Hx Hx2. apply (H2 x Hx). by right.
    + by intros ->.
Qed.

Lemma unique_ids_kept_witness :
  (∀ r ir c', createBook r books = Ok (ir, c') → NoDup (ids c'))
  ∧ (∀ t v r c', updateBookPrice t v books = Ok (r, c') → ids c' = ids books)
  ∧ (∀ t, NoDup (ids (deleteBook t books).2)).
Proof. apply (unique_ids_kept books). by apply (bool_decide_unpack _). Defined.

Lemma insertOne_Ok (r : doc) (c c' : collection) (ir : InsertOneResult) :
  insertOne r c = Ok (ir, c') →
  ∃ d, c' = c ++ [d] ∧ d !! "_id" = Some (insertedId ir)
       ∧ ∀ f, f ≠ "_id" → d !! f = r !! f.
Proof.
  assert (Hnew : ∃ d, c ++ [<["_id" := fresh_oid c]> r] = c ++ [d]
                   ∧ d !! "_id" = Some (fresh_oid c)
                   ∧ ∀ f, f ≠ "_id" → d !! f = r !! f).
  { eexists. split; [done|]. split; [by rewrite lookup_insert_eq|].
    intros f Hf. by rewrite lookup_insert_ne. }
  unfold insertOne. destruct (r !! "_id") as [id|] eqn:Hr;
    [|by intros [= <- <-]].
  destruct id; try (destruct (existsb _ c); [done|]);
    intros [= <- <-]; try done; by exists r.
Qed.



(** X5: when no stored record has the title of [r], [createBook r]
    followed by [deleteBook] of that title reports one deletion and leaves
    the collection as it was before the two calls. *)
Theorem create_then_delete (r : doc) (t : string) (c c' : collection)
    (ir : InsertOneResult) :
  r !! "title" = Some (VStr t) →
  Forall (fun d => d !! "title" ≠ Some (VStr t)) c →
  createBook r c = Ok (ir, c') →
  deleteBook t c' = ({| deletedCount := 1 |}, c).
Proof.
  intros Ht Hc (d & -> & _ & Hd)%insertOne_Ok.
  rewrite <- (app_nil_r c) at 2.
  apply deleteOne_first_match; [by apply title_Forall|].
  rewrite matches_title, bool_decide_eq_true, Hd; done.
Qed.

Lemma create_then_delete_witness :
  deleteBook "The Silent Patient" (books ++ [stored 5 the_silent_patient])
  = ({| deletedCount := 1 |}, books).
Proof.
  apply (create_then_delete the_silent_patient "The Silent Patient" books _
           {| acknowledged := true; insertedId := VOid 5 |});
    [reflexivity | by repeat constructor | reflexivity].
Defined.


(** X7: a write by title [t] does not change what [readBook] returns for
    another title: neither [createBook] of a record titled [t], nor
    [updateBookPrice t], nor [deleteBook t]. *)
Theorem readBook_other_title (t t' : string) (c : collection) :
  t' ≠ t →
  (∀ r ir c', r !! "title" = Some (VStr t) → createBook r c = Ok (ir, c') →
     readBook t' c' = readBook t' c)
  ∧ (∀ v r c', updateBookPrice t v c = Ok (r, c') →
       readBook t' c' = readBook t' c)
  ∧ readBook t' (deleteBook t c).2 = readBook t' c.
Proof.
  intros Hne. split; [|split].
  - intros r ir c' Hr (d & -> & _ & Hd)%insertOne_Ok. unfold readBook.
    rewrite findOne_skip, app_nil_r; [done|].
    apply (other_title t); [done|]. by rewrite Hd.
  - intros v r c'. destruct (readBook t c) as [d|] eqn:Hr.
    + apply readBook_split in Hr as (c1 & c2 & -> & Hd & Hc1).
      rewrite updateBookPrice_first by done. intros [= <- <-].
      unfold readBook. apply findOne_swap; apply (other_title t); try done.
      by rewrite lookup_insert_ne.
    + apply readBook_None, title_Forall in Hr. unfold updateBookPrice.
      rewrite updateOne_no_match by done. by intros [= <- <-].
  - generalize (deleteBook_split t c).
    destruct (readBook t c) as [d|] eqn:Hr; [|by intros ->].
    intros (c1 & c2 & -> & Hd & Hc1 & ->). simpl.
    unfold readBook. symmetry. apply findOne_skip.
    by apply (other_title t).
Qed.

Lemma readBook_other_title_witness :
  (∀ r ir c', r !! "title" = Some (VStr "The Hobbit") →
     createBook r books = Ok (ir, c') →
     readBook "1984" c' = readBook "1984" books)
  ∧ (∀ v r c', updateBookPrice "The Hobbit" v books = Ok (r, c') →
       readBook "1984" c' = readBook "1984" books)
  ∧ readBook "1984" (deleteBook "The Hobbit" books).2 = readBook "1984" books.
Proof. by apply (readBook_other_title "The Hobbit" "1984" books). Defined.

(** ** The filtered reads, on any collection *)

(** X8: on any collection of records with scalar fields,
    [findBooksBetweenYears] with the end year before the start year
    returns nothing. (A year that is an array of numbers, which the model
    does not represent, can match both bounds with different elements.) *)
Theorem findBooksBetweenYears_empty_range (startYear endYear : Qc)
    (c : collection) :
  (endYear < startYear)%Qc → findBooksBetweenYears startYear endYear c = [].
Proof.
  intros Hlt. apply Permutation_nil_r.
  unfold findBooksBetweenYears. rewrite sort_docs_perm. unfold find.
  rewrite (list_filter_iff _ _ _ (matches_year_between _ _)).
  induction c as [|d c IH]; [done|].
  rewrite filter_cons_False; [done|]. unfold year_between.
  destruct (d !! "published_year") as [[]|]; try tauto.
  intros [H1 H2]. apply (Qclt_not_le _ _ Hlt). by etrans.
Qed.

Lemma findBooksBetweenYears_empty_range_witness :
  findBooksBetweenYears (Qc_of_Z 1950) (Qc_of_Z 1900) books = [].
Proof.
  apply (findBooksBetweenYears_empty_range (Qc_of_Z 1950) (Qc_of_Z 1900)).
  reflexivity.
Defined.




Lemma matches_genre (g : string) (d : doc) :
  matches [("genre", Equals (VStr g))] d ↔ d !! "genre" = Some (VStr g).
Proof.
  unfold matches, field. simpl. rewrite andb_true_r, bool_decide_spec.
  destruct (d !! "genre"); simpl; naive_solver.
Qed.

(** *** Reads through an index *)

Lemma insert_by_perm (k : sort_spec) (d : doc) (l : collection) :
  insert_by k d l ≡ₚ d :: l.
Proof.
  induction l as [|x l IH]; [done|]. cbn [insert_by].
  destruct (doc_compare k x d); [done| |done].
  rewrite IH. apply Permutation_swap.
Qed.

Lemma index_order_perm (k : sort_spec) (c : collection) :
  index_order k c ≡ₚ c.
Proof.
  induction c as [|d c IH]; [done|]. unfold index_order. cbn [foldr].
  fold (index_order k c). by rewrite insert_by_perm, IH.
Qed.

Lemma insert_by_sorted (k : sort_spec) (d : doc) (l : collection) :
  StronglySorted (doc_le k) l → StronglySorted (doc_le k) (insert_by k d l).
Proof.
  induction 1 as [|x l Hl IH Hx]; [by repeat constructor|].
  cbn [insert_by]. destruct (doc_compare k x d) eqn:Hc.
  - constructor; [by constructor|]. constructor.
    + unfold doc_le. rewrite doc_compare_antisym, Hc. done.
    + eapply Forall_impl; [exact Hx|]. intros y Hy. simpl in Hy.
      trans x; [|done]. unfold doc_le.
      by rewrite doc_compare_antisym, Hc.
  - constructor; [done|]. rewrite insert_by_perm. constructor; [|done].
    unfold doc_le. by rewrite Hc.
  - constructor; [by constructor|]. constructor.
    + unfold doc_le. rewrite doc_compare_antisym, Hc. done.
    + eapply Forall_impl; [exact Hx|]. intros y Hy. simpl in Hy.
      trans x; [|done]. unfold doc_le.
      by rewrite doc_compare_antisym, Hc.
Qed.

Lemma index_order_sorted (k : sort_spec) (c : collection) :
  StronglySorted (doc_le k) (index_order k c).
Proof.
  induction c as [|d c IH]; [constructor|]. unfold index_order.
  cbn [foldr]. by apply insert_by_sorted.
Qed.

(** An index scan is stable: the documents with the keys of [d0] keep
    their natural order. *)
Lemma insert_by_stable (k : sort_spec) (d d0 : doc) (l : collection) :
  filter (fun x => doc_compare k x d0 = Eq) (insert_by k d l)
  = filter (fun x => doc_compare k x d0 = Eq) (d :: l).
Proof.
  induction l as [|x l IH]; [done|]. cbn [insert_by].
  destruct (doc_compare k x d) eqn:Hc; [done| |done].
  rewrite filter_cons, IH, !filter_cons.
  destruct (decide (doc_compare k x d0 = Eq)) as [Hx|Hx]; [|done].
  destruct (decide (doc_compare k d d0 = Eq)) as [Hd|Hd]; [|done].
  rewrite (doc_compare_eq_l _ _ _ d Hx) in Hc.
  rewrite doc_compare_antisym, Hd in Hc. done.
Qed.

Lemma index_order_stable (k : sort_spec) (d0 : doc) (c : collection) :
  filter (fun x => doc_compare k x d0 = Eq) (index_order k c)
  = filter (fun x => doc_compare k x d0 = Eq) c.
Proof.
  induction c as [|d c IH]; [done|]. unfold index_order. cbn [foldr].
  fold (index_order k c). by rewrite insert_by_stable, !filter_cons, IH.
Qed.

(** Without an equal key to reorder, the scan leaves a sorted list as it
    is. *)
Lemma find_with_perm (cat : catalogue) (q : filter_doc) (c : collection) :
  find_with cat q c ≡ₚ find q c.
Proof.
  unfold find_with. destruct (served_by q cat); [|done].
  apply index_order_perm.
Qed.

Lemma served_by_genre (g : value) (cat : catalogue) :
  served_by [("genre", Equals g)] cat = List.find (leads_with "genre") cat.
Proof. done. Qed.

Lemma find_none_Forall {A} (p : A → bool) (l : list A) :
  Forall (fun x => ¬ p x) l → List.find p l = None.
Proof.
  induction 1 as [|x l Hx _ IH]; [done|]. simpl.
  destruct (p x); [by destruct Hx|done].
Qed.

Lemma find_some_only {A} (p : A → bool) (a : A) (l : list A) :
  a ∈ l → p a → Forall (fun x => p x → x = a) l → List.find p l = Some a.
Proof.
  intros Ha Hpa Hl.
  induction Hl as [|x l Hx _ IH]; [by apply elem_of_nil in Ha|].
  simpl. destruct (p x) eqn:Hp.
  - f_equal. by apply Hx.
  - apply IH. apply elem_of_cons in Ha as [Heq|Ha]; [|done].
    subst x. by rewrite Hp in Hpa.
Qed.

Lemma filter_ext_in {A} (P Q : A → Prop) `{!∀ x, Decision (P x)}
    `{!∀ x, Decision (Q x)} (l : list A) :
  (∀ x, x ∈ l → P x ↔ Q x) → filter P l = filter Q l.
Proof.
  induction l as [|x l IH]; [done|]. intros Hl. rewrite !filter_cons.
  rewrite IH by (intros y Hy; apply Hl; by right).
  assert (Hx : P x ↔ Q x) by (apply Hl; by left).
  destruct (decide (P x)) as [HP|HP].
  - by rewrite decide_True by by apply Hx.
  - by rewrite decide_False by by rewrite <- Hx.
Qed.

Lemma projection_fields (d : doc) (f : string) :
  apply_projection (Include ["title"; "author"; "price"] false) d !! f
  = if bool_decide (f ∈ ["title"; "author"; "price"]) then d !! f else None.
Proof.
  unfold apply_projection. rewrite map_lookup_filter. unfold projected.
  destruct (d !! f) as [x|] eqn:Hf; simpl.
  - case_bool_decide as Hid.
    + subst f. rewrite bool_decide_eq_false_2; [done|]. set_solver.
    + destruct (bool_decide (f ∈ ["title"; "author"; "price"])) eqn:E.
      * by rewrite option_guard_True.
      * rewrite option_guard_False; [done|]. by intros [].
  - by destruct (bool_decide _).
Qed.

Lemma genre_year_order (d1 d2 : doc) :
  field "genre" d1 = field "genre" d2 →
  doc_compare genre_year_key d1 d2
  = CompOpp (value_compare (field "published_year" d1)
                           (field "published_year" d2)).
Proof.
  intros Hg. unfold genre_year_key. cbn [doc_compare directed].
  rewrite Hg, value_compare_refl.
  by destruct (value_compare _ _).
Qed.

(** X10: [findBooksByGenre] returns one document for each record whose
    genre is the given string; the document has the title, the author and
    the price of the record, each one when the record has it, and no other
    field, not even [_id]. The documents come in the order of the
    collection as long as no index starts with [genre]. Once the index of
    the script on genre and year is there, and is the only index that
    starts with [genre], they come by [published_year] descending in the
    comparison order of the store, the records of one year in the order
    of the collection. *)
Theorem findBooksByGenre_spec (genre : string) (cat : catalogue)
    (c : collection) :
  ∃ recs,
    recs ≡ₚ filter (fun d => d !! "genre" = Some (VStr genre)) c
    ∧ Forall2
        (fun d out =>
           ∀ f, out !! f
                = if bool_decide (f ∈ ["title"; "author"; "price"])
                  then d !! f else None)
        recs (findBooksByGenre genre cat c)
    ∧ (Forall (fun k => ¬ leads_with "genre" k) cat →
       recs = filter (fun d => d !! "genre" = Some (VStr genre)) c)
    ∧ (genre_year_key ∈ cat →
       Forall (fun k => leads_with "genre" k → k = genre_year_key) cat →
       StronglySorted
         (fun d1 d2 =>
            value_compare (field "published_year" d2)
                          (field "published_year" d1) ≠ Gt) recs
       ∧ ∀ y, filter (fun d => field "published_year" d = y) recs
              = filter (fun d => field "published_year" d = y)
                  (filter (fun d => d !! "genre" = Some (VStr genre)) c)).
Proof.
  unfold findBooksByGenre, find_projected.
  set (q := [("genre", Equals (VStr genre))]).
  assert (Hfind : find q c
                  = filter (fun d => d !! "genre" = Some (VStr genre)) c).
  { unfold find. apply (list_filter_iff _ _ _ (matches_genre genre)). }
  assert (Hg : ∀ d, d ∈ find q c → field "genre" d = VStr genre).
  { intros d. rewrite Hfind. intros [Hd _]%list_elem_of_filter.
    unfold field. by rewrite Hd. }
  exists (find_with cat q c). split; [|split; [|split]].
  - by rewrite find_with_perm, Hfind.
  - apply Forall2_fmap_r, Forall_Forall2_diag, Forall_forall.
    intros d _ f. apply projection_fields.
  - intros Hnone. unfold find_with, q. rewrite served_by_genre.
    by rewrite find_none_Forall.
  - intros Hin Honly. unfold find_with, q. rewrite served_by_genre.
    rewrite (find_some_only _ genre_year_key) by done.
    fold q. split.
    + refine (StronglySorted_impl _ _ (fun d => d ∈ find q c) _ _ _
                (index_order_sorted genre_year_key (find q c))).
      * intros d1 d2 H1 H2. unfold doc_le.
        rewrite genre_year_order by by rewrite !Hg.
        rewrite (value_compare_antisym (field "published_year" d1)).
        done.
      * apply Forall_forall. intros d. by rewrite index_order_perm.
    + intros y. rewrite <- Hfind.
      set (d0 := ({[ "genre" := VStr genre; "published_year" := y ]} : doc)).
      assert (Hkey : ∀ d, d ∈ find q c →
                doc_compare genre_year_key d d0 = Eq
                ↔ field "published_year" d = y).
      { intros d Hd. rewrite genre_year_order by by rewrite Hg.
        replace (field "published_year" d0) with y by done.
        split.
        - intros Hc. apply value_compare_eq.
          by destruct (value_compare _ _).
        - intros ->. by rewrite value_compare_refl. }
      rewrite <- (filter_ext_in _ _ _ Hkey).
      rewrite <- (index_order_stable genre_year_key d0).
      apply filter_ext_in. intros d Hd. symmetry. apply Hkey.
      by rewrite index_order_perm in Hd.
Qed.




(** ** The aggregations, on any collection *)

Lemma average_group_out_general (c : collection) :
  group_out [("averagePrice", Avg (Field "price"))]
    <$> group_docs (Field "genre") c
  = (fun g => {[ "_id" := g; "averagePrice" := average_value g c ]})
    <$> (group_docs (Field "genre") c).*1.
Proof.
  rewrite <- list_fmap_compose. apply list_fmap_ext.
  intros i [g ds] Hi. apply list_elem_of_lookup_2, genre_buckets in Hi.
  destruct Hi as [Hds Hne].
  unfold group_out, average_value, numeric_prices_of.
  cbn [foldr fst snd compose run_acc]. rewrite <- Hds.
  rewrite <- !insert_empty, (insert_insert_ne _ "averagePrice" "_id") by done.
  do 2 f_equal.
Qed.

(** The groups of [getAveragePriceByGenre] on any collection. *)
Lemma average_groups (c : collection) :
  ∃ genres,
    getAveragePriceByGenre c
    = Ok ((fun g => {[ "_id" := g; "averagePrice" := average_value g c ]})
          <$> genres)
    ∧ NoDup genres
    ∧ (∀ g, g ∈ genres ↔ ∃ d, d ∈ c ∧ field "genre" d = g)
    ∧ StronglySorted
        (fun g1 g2 =>
           value_compare (average_value g2 c) (average_value g1 c) ≠ Gt) genres.
Proof.
  unfold getAveragePriceByGenre. cbn [aggregate run_stage].
  cbn [mbind res_bind].
  rewrite average_group_out_general.
  destruct (sorted_fmap_inv
    (fun g => {[ "_id" := g; "averagePrice" := average_value g c ]})
    [("averagePrice", Desc)] (group_docs (Field "genre") c).*1)
    as (genres & Heq & Hperm & Hsorted).
  exists genres. split; [by rewrite <- Heq|].
  destruct (group_docs_spec (Field "genre") c) as (Hnd & _ & _).
  split; [by rewrite Hperm|]. split.
  - intros g. rewrite Hperm. apply group_keys_elem.
  - refine (StronglySorted_impl _ _ (fun _ => True) _ _ _ Hsorted);
      [|by apply Forall_true].
    intros g1 g2 _ _. unfold doc_le. cbn [doc_compare]. unfold field.
    rewrite !lookup_insert_ne, !lookup_singleton_eq by done. simpl.
    rewrite (value_compare_antisym (average_value g1 c) (average_value g2 c)).
    by destruct (value_compare (average_value g1 c) (average_value g2 c)).
Qed.
Lemma project_decade_cases (d : doc) :
  project_doc decade_stage d
  = if decide (bad_year d) then Err (TypeMismatch "$mod")
    else Ok (decade_view d).
Proof.
  destruct (decide (bad_year d)) as [Hbad|Hok];
    unfold bad_year in *;
    unfold project_doc, decade_stage, decade_view, decade_value, decade;
    cbn [project_fields eval eval_operand]; unfold num_of_Z;
    by destruct (d !! "published_year") as [[]|].
Qed.

Lemma mapM_res_Err {A B} (f : A → res B) (e : error) (l : list A) :
  Forall (fun x => f x = Err e ∨ ∃ y, f x = Ok y) l →
  Exists (fun x => f x = Err e) l →
  mapM f l = Err e.
Proof.
  induction 1 as [|x l Hx Hl IH]; [by intros ?%Exists_nil|].
  intros Hex. cbn [mapM]. fold (mapM f l).
  destruct Hx as [Hx|[y Hx]]; rewrite Hx; [done|]. cbn [mbind res_bind].
  apply Exists_cons in Hex as [Hex|Hex]; [congruence|].
  by rewrite IH.
Qed.

Lemma project_decades (c : collection) :
  mapM (project_doc decade_stage) c
  = if decide (Exists bad_year c) then Err (TypeMismatch "$mod")
    else Ok (decade_view <$> c).
Proof.
  destruct (decide (Exists bad_year c)) as [Hex|Hno].
  - apply mapM_res_Err.
    + apply Forall_forall. intros d _. rewrite project_decade_cases.
      destruct (decide (bad_year d)); eauto.
    + eapply Exists_impl; [exact Hex|]. intros d Hd. simpl in Hd.
      rewrite project_decade_cases. by rewrite decide_True.
  - apply mapM_Ok. apply not_Exists_Forall in Hno; [|apply _].
    eapply Forall_impl; [exact Hno|]. intros d Hd. simpl in Hd.
    rewrite project_decade_cases. by rewrite decide_False.
Qed.

Lemma getBooksByDecade_unfold (c : collection) :
  getBooksByDecade c
  = c' ← mapM (project_doc decade_stage) c;
    Ok (sort_docs [("_id", Asc)]
          (group_out [("count", Sum (Const (num_of_Z 1)))]
             <$> group_docs (Field "decade") c')).
Proof.
  unfold getBooksByDecade. cbn [aggregate run_stage]. fold decade_stage.
  by destruct (mapM (project_doc decade_stage) c).
Qed.

(** X13: [getBooksByDecade] is refused, with the type error of [$mod], as
    soon as one record has a [published_year] that is a string, a boolean
    or an identifier; it returns a result when every year is a number,
    [null] or missing. *)
Theorem getBooksByDecade_rejects (c : collection) :
  (Exists bad_year c → getBooksByDecade c = Err (TypeMismatch "$mod"))
  ∧ (Forall (fun d => ¬ bad_year d) c → ∃ out, getBooksByDecade c = Ok out).
Proof.
  rewrite getBooksByDecade_unfold, project_decades. split.
  - intros Hex. by rewrite decide_True.
  - intros Hall. rewrite decide_False; [by eexists|].
    intros Hex. apply Exists_exists in Hex as (d & Hd & Hbad).
    by apply (proj1 (Forall_forall _ _) Hall d).
Qed.
Lemma decade_view_key (d : doc) :
  group_key (Field "decade") (decade_view d) = decade_value d.
Proof.
  unfold group_key, decade_view. cbn [eval_operand].
  by rewrite lookup_insert_eq.
Qed.

Lemma decade_view_buckets (c : collection) (k : value) (ds : list doc) :
  (k, ds) ∈ group_docs (Field "decade") (decade_view <$> c) →
  length ds = count_decade k c.
Proof.
  intros Hel.
  destruct (group_docs_spec (Field "decade") (decade_view <$> c))
    as (_ & Hbk & _).
  destruct (Hbk _ _ Hel) as [-> _].
  rewrite length_filter_fmap. unfold count_decade. f_equal.
  apply list_filter_iff. intros x. by rewrite decade_view_key.
Qed.

Lemma decade_view_keys (c : collection) (k : value) :
  k ∈ (group_docs (Field "decade") (decade_view <$> c)).*1
  ↔ ∃ d, d ∈ c ∧ decade_value d = k.
Proof.
  rewrite group_keys_elem. split.
  - intros (p & (d & -> & Hd)%list_elem_of_fmap & <-).
    exists d. by rewrite decade_view_key.
  - intros (d & Hd & <-). exists (decade_view d).
    split; [|apply decade_view_key]. apply list_elem_of_fmap. by exists d.
Qed.

Lemma count_view_out (c : collection) :
  group_out [("count", Sum (Const (num_of_Z 1)))]
    <$> group_docs (Field "decade") (decade_view <$> c)
  = (fun k => {[ "_id" := k;
                 "count" := num_of_Z (Z.of_nat (count_decade k c)) ]})
    <$> (group_docs (Field "decade") (decade_view <$> c)).*1.
Proof.
  rewrite <- !list_fmap_compose. apply list_fmap_ext.
  intros i [k ds] Hi.
  apply list_elem_of_lookup_2, decade_view_buckets in Hi as Hlen.
  unfold group_out. cbn [foldr fst snd compose]. rewrite count_acc, Hlen.
  by rewrite <- !insert_empty, (insert_insert_ne _ "_id").
Qed.

Lemma count_decade_sum (c : collection) :
  sum_list_with (fun k => count_decade k c)
    (group_docs (Field "decade") (decade_view <$> c)).*1
  = length c.
Proof.
  rewrite <- (length_fmap decade_view c).
  rewrite <- (group_docs_sizes (Field "decade")).
  rewrite sum_list_with_fmap. apply sum_list_with_ext_in, Forall_forall.
  intros [k ds] Hel%decade_view_buckets. by simpl.
Qed.

Lemma id_lt_of_doc_le_general (a b x y : value) :
  doc_le [("_id", Asc)]
    {[ "_id" := a; "count" := x ]} {[ "_id" := b; "count" := y ]}
  ∧ a ≠ b →
  value_compare a b = Lt.
Proof.
  unfold doc_le. cbn [doc_compare]. unfold field.
  rewrite !lookup_insert_eq. simpl. intros [Hle Hne].
  destruct (value_compare a b) eqn:E; try done.
  by apply value_compare_eq in E.
Qed.

(** The groups of [getBooksByDecade] on a collection that [$mod]
    accepts. *)
Lemma getBooksByDecade_groups (c : collection) :
  Forall (fun d => ¬ bad_year d) c →
  ∃ keys,
    getBooksByDecade c
    = Ok ((fun k => {[ "_id" := k;
                       "count" := num_of_Z (Z.of_nat (count_decade k c)) ]})
          <$> keys)
    ∧ NoDup keys
    ∧ (∀ k, k ∈ keys ↔ ∃ d, d ∈ c ∧ decade_value d = k)
    ∧ StronglySorted (fun a b => value_compare a b = Lt) keys
    ∧ sum_list_with (fun k => count_decade k c) keys = length c.
Proof.
  intros Hall. rewrite getBooksByDecade_unfold, project_decades.
  rewrite decide_False.
  2:{ intros Hex. apply Exists_exists in Hex as (d & Hd & Hbad).
      by apply (proj1 (Forall_forall _ _) Hall d). }
  cbn [mbind res_bind]. rewrite count_view_out.
  set (tbl := group_docs (Field "decade") (decade_view <$> c)).
  destruct (sorted_fmap_inv
    (fun k => {[ "_id" := k;
                 "count" := num_of_Z (Z.of_nat (count_decade k c)) ]})
    [("_id", Asc)] tbl.*1) as (keys & Heq & Hperm & Hsorted).
  exists keys. split; [by rewrite <- Heq|].
  destruct (group_docs_spec (Field "decade") (decade_view <$> c))
    as (Hnd & _ & _). fold tbl in Hnd.
  assert (Hndk : NoDup keys) by by rewrite Hperm.
  split; [done|]. split; [|split].
  - intros k. rewrite Hperm. apply decade_view_keys.
  - assert (Hs := StronglySorted_NoDup _ _ Hsorted Hndk).
    refine (StronglySorted_impl _ _ (fun _ => True) _ _ _ Hs);
      [|by apply Forall_true].
    intros a b _ _. apply id_lt_of_doc_le_general.
  - rewrite Hperm. apply count_decade_sum.
Qed.



(** X15: the result of [getBooksByDecade] does not depend on the order of
    the records in the collection: two collections with the same records
    give the same groups in the same order, or are both refused. *)
Theorem getBooksByDecade_order_free (c1 c2 : collection) :
  c1 ≡ₚ c2 → getBooksByDecade c1 = getBooksByDecade c2.
Proof.
  intros Hperm.
  assert (Hex : Exists bad_year c1 ↔ Exists bad_year c2).
  { rewrite !Exists_exists. by setoid_rewrite Hperm. }
  destruct (decide (Exists bad_year c1)) as [Hbad|Hok].
  - rewrite !getBooksByDecade_unfold, !project_decades.
    rewrite !decide_True; tauto.
  - assert (Hok2 : ¬ Exists bad_year c2) by tauto.
    apply not_Exists_Forall in Hok; [|apply _].
    apply not_Exists_Forall in Hok2; [|apply _].
    destruct (getBooksByDecade_groups c1 Hok)
      as (k1 & -> & Hnd1 & Hin1 & Hs1 & _).
    destruct (getBooksByDecade_groups c2 Hok2)
      as (k2 & -> & Hnd2 & Hin2 & Hs2 & _).
    assert (k1 = k2) as ->.
    { apply (StronglySorted_unique_strong
               (fun a b => value_compare a b = Lt)); [|done|done|].
      - intros x y _ _ Hxy Hyx.
        rewrite (value_compare_antisym x y), Hxy in Hyx. done.
      - apply NoDup_Permutation; [done|done|].
        intros k. rewrite Hin1, Hin2. by setoid_rewrite Hperm. }
    f_equal. apply list_fmap_ext. intros i k _.
    assert (count_decade k c1 = count_decade k c2) as ->; [|done].
    unfold count_decade. apply Permutation_length.
    by apply filter_Permutation.
Qed.

Lemma getBooksByDecade_order_free_witness :
  getBooksByDecade books = getBooksByDecade (reverse books).
Proof.
  apply (getBooksByDecade_order_free books (reverse books)).
  by rewrite reverse_Permutation.
Defined.
Lemma price_order_of_doc_le (t d : doc) :
  field "genre" d = field "genre" t →
  doc_le [("genre", Asc); ("price", Desc)] t d →
  value_compare (field "price" d) (field "price" t) ≠ Gt.
Proof.
  unfold doc_le. cbn [doc_compare directed].
  intros ->. rewrite value_compare_refl.
  rewrite (value_compare_antisym (field "price" t) (field "price" d)).
  by destruct (value_compare (field "price" t) (field "price" d)).
Qed.

Lemma top_of_bucket (c : collection) (g : value) (ds : list doc) :
  (g, ds) ∈ group_docs (Field "genre")
              (sort_docs [("genre", Asc); ("price", Desc)] c) →
  ∃ t ds', ds = t :: ds' ∧ t ∈ c ∧ field "genre" t = g
    ∧ ∀ d, d ∈ c → field "genre" d = g →
           value_compare (field "price" d) (field "price" t) ≠ Gt.
Proof.
  intros Hel. apply genre_buckets in Hel as [Hds Hne].
  destruct ds as [|t ds']; [done|]. exists t, ds'. split; [done|].
  assert (Ht : t ∈ t :: ds') by left. rewrite Hds in Ht.
  apply list_elem_of_filter in Ht as [Hg Ht]. rewrite sort_docs_perm in Ht.
  split; [done|]. split; [done|]. intros d Hd Hdg.
  assert (Hin : d ∈ t :: ds').
  { rewrite Hds. apply list_elem_of_filter. by rewrite sort_docs_perm. }
  assert (Hs : StronglySorted (doc_le [("genre", Asc); ("price", Desc)])
                 (t :: ds')).
  { rewrite Hds. apply StronglySorted_filter, sort_docs_sorted. }
  apply StronglySorted_inv in Hs as [_ Hs]. rewrite Forall_forall in Hs.
  apply elem_of_cons in Hin as [->|Hin].
  - by rewrite value_compare_refl.
  - apply price_order_of_doc_le; [congruence|]. by apply Hs.
Qed.

(** X16: [getMostExpensiveByGenre] is never refused. It returns one group
    for each distinct value of [genre], with the title, author and price of
    a record of that genre whose price no record of the genre exceeds in
    the comparison order of the store; the price shown is [null] only when
    every record of the genre has no price or [null]. *)
Theorem most_expensive_any_collection (c : collection) :
  ∃ tops,
    getMostExpensiveByGenre c
    = Ok ((fun t => {[ "_id" := field "genre" t;
                       "title" := field "title" t;
                       "author" := field "author" t;
                       "price" := field "price" t ]}) <$> tops)
    ∧ NoDup (field "genre" <$> tops)
    ∧ (∀ d, d ∈ c → field "genre" d ∈ field "genre" <$> tops)
    ∧ Forall (fun t => t ∈ c
                ∧ (∀ d, d ∈ c → field "genre" d = field "genre" t →
                     value_compare (field "price" d) (field "price" t) ≠ Gt)
                ∧ (field "price" t = VNull →
                   ∀ d, d ∈ c → field "genre" d = field "genre" t →
                     field "price" d = VNull)) tops.
Proof.
  unfold getMostExpensiveByGenre. cbn [aggregate run_stage].
  cbn [mbind res_bind].
  set (tbl := group_docs (Field "genre")
                (sort_docs [("genre", Asc); ("price", Desc)] c)).
  exists ((fun b => default ∅ (head b.2)) <$> tbl).
  assert (Hb : ∀ b, b ∈ tbl →
    ∃ t ds', b = (field "genre" t, t :: ds') ∧ t ∈ c
      ∧ ∀ d, d ∈ c → field "genre" d = field "genre" t →
             value_compare (field "price" d) (field "price" t) ≠ Gt).
  { intros [g ds] (t & ds' & -> & Ht & <- & Hmax)%top_of_bucket.
    by exists t, ds'. }
  destruct (group_docs_spec (Field "genre")
              (sort_docs [("genre", Asc); ("price", Desc)] c))
    as (Hnd & _ & Hin). fold tbl in Hnd, Hin.
  assert (Hkeys : field "genre" <$> ((fun b => default ∅ (head b.2)) <$> tbl)
                  = tbl.*1).
  { rewrite <- list_fmap_compose. apply list_fmap_ext. intros i b Hi.
    apply list_elem_of_lookup_2, Hb in Hi as (t & ds' & -> & _). done. }
  split; [|split; [|split]].
  - f_equal. rewrite <- list_fmap_compose. apply list_fmap_ext.
    intros i b Hi.
    apply list_elem_of_lookup_2, Hb in Hi as (t & ds' & -> & _).
    unfold group_out.
    cbn [foldr fst snd compose run_acc head default eval_operand].
    unfold field, id. rewrite <- !insert_empty.
    rewrite (insert_insert_ne _ "price" "_id") by done.
    rewrite (insert_insert_ne _ "author" "_id") by done.
    by rewrite (insert_insert_ne _ "title" "_id") by done.
  - by rewrite Hkeys.
  - intros d Hd. rewrite Hkeys. apply Hin. by rewrite sort_docs_perm.
  - apply Forall_forall. intros t (b & -> & Hel)%list_elem_of_fmap.
    apply Hb in Hel as (t & ds' & -> & Ht & Hmax). simpl.
    split; [done|]. split; [done|].
    intros Hnull d Hd Hg. specialize (Hmax d Hd Hg). rewrite Hnull in Hmax.
    by destruct (field "price" d).
Qed.
Lemma omap_nil_iff {A B} (f : A → option B) (l : list A) :
  omap f l = [] ↔ Forall (fun x => f x = None) l.
Proof.
  induction l as [|x l IH]; [by split; constructor|].
  cbn [omap list_omap]. fold (omap f l). rewrite Forall_cons.
  destruct (f x); [|by rewrite IH; tauto].
  split; [done|by intros [? _]].
Qed.

Lemma average_null (g : value) (c : collection) :
  average_value g c = VNull
  ↔ ∀ d, d ∈ c → field "genre" d = g → numeric_price d = None.
Proof.
  trans (numeric_prices_of g c = []).
  - unfold average_value. by destruct (numeric_prices_of g c).
  - unfold numeric_prices_of. rewrite omap_nil_iff, Forall_forall.
    setoid_rewrite list_elem_of_filter. naive_solver.
Qed.

(** X12: [getAveragePriceByGenre] is never refused, whatever scalar values
    the records hold. It returns one group for each distinct value of
    [genre] (a record without genre counts under [null]); the
    [averagePrice] of a group is [null] exactly when no record of the
    group has a numeric price, and a number otherwise; the groups come in
    descending order of [averagePrice], in the comparison order of the
    store, where [null] is below every number. *)
Theorem average_price_any_collection (c : collection) :
  ∃ genres (avg : value → value),
    getAveragePriceByGenre c
    = Ok ((fun g => {[ "_id" := g; "averagePrice" := avg g ]}) <$> genres)
    ∧ NoDup genres
    ∧ (∀ g, g ∈ genres ↔ ∃ d, d ∈ c ∧ field "genre" d = g)
    ∧ StronglySorted
        (fun g1 g2 => value_compare (avg g2) (avg g1) ≠ Gt) genres
    ∧ (∀ g, (avg g = VNull
             ↔ ∀ d, d ∈ c → field "genre" d = g → numeric_price d = None)
            ∧ (avg g = VNull ∨ ∃ a, avg g = VNum a)).
Proof.
  destruct (average_groups c) as (genres & H1 & H2 & H3 & H4).
  exists genres, (fun g => average_value g c).
  repeat (split; [done|]). intros g. split; [apply average_null|].
  unfold average_value. destruct (numeric_prices_of g c); eauto.
Qed.

(** X17: two collections with the same records in another order give the
    same documents to [findBooksByGenre], [findBooksBetweenYears] and
    [findAffordableBooksInStock], up to the order of the result, and
    groups of the same genres to [getAveragePriceByGenre]. *)
Theorem reads_order_free (c1 c2 : collection) :
  c1 ≡ₚ c2 →
  (∀ genre cat, findBooksByGenre genre cat c1
                ≡ₚ findBooksByGenre genre cat c2)
  ∧ (∀ s e, findBooksBetweenYears s e c1 ≡ₚ findBooksBetweenYears s e c2)
  ∧ (∀ m, findAffordableBooksInStock m c1
          ≡ₚ findAffordableBooksInStock m c2)
  ∧ (∃ o1 o2, getAveragePriceByGenre c1 = Ok o1
       ∧ getAveragePriceByGenre c2 = Ok o2
       ∧ field "_id" <$> o1 ≡ₚ field "_id" <$> o2).
Proof.
  intros Hperm. split; [|split; [|split]].
  - intros genre cat. unfold findBooksByGenre, find_projected.
    rewrite !find_with_perm. unfold find. by rewrite Hperm.
  - intros s e. unfold findBooksBetweenYears, find.
    by rewrite !sort_docs_perm, Hperm.
  - intros m. unfold findAffordableBooksInStock, find. by rewrite Hperm.
  - destruct (average_groups c1) as (g1 & -> & Hnd1 & Hin1 & _).
    destruct (average_groups c2) as (g2 & -> & Hnd2 & Hin2 & _).
    eexists _, _. split; [done|]. split; [done|].
    assert (Hid : ∀ (c : collection) (gs : list value),
      field "_id" <$> ((fun g => {[ "_id" := g;
                                    "averagePrice" := average_value g c ]})
                       <$> gs) = gs).
    { intros c gs. rewrite <- list_fmap_compose.
      rewrite <- (list_fmap_id gs) at 2. apply list_fmap_ext.
      intros i g _. unfold field. simpl.
      by rewrite lookup_insert_eq. }
    rewrite !Hid. apply NoDup_Permutation; [done|done|].
    intros g. rewrite Hin1, Hin2. by setoid_rewrite Hperm.
Qed.

Lemma reads_order_free_witness :
  (∀ genre cat, findBooksByGenre genre cat books
                ≡ₚ findBooksByGenre genre cat (reverse books))
  ∧ (∀ s e, findBooksBetweenYears s e books
            ≡ₚ findBooksBetweenYears s e (reverse books))
  ∧ (∀ m, findAffordableBooksInStock m books
          ≡ₚ findAffordableBooksInStock m (reverse books))
  ∧ (∃ o1 o2, getAveragePriceByGenre books = Ok o1
       ∧ getAveragePriceByGenre (reverse books) = Ok o2
       ∧ field "_id" <$> o1 ≡ₚ field "_id" <$> o2).
Proof.
  apply (reads_order_free books (reverse books)).
  by rewrite reverse_Permutation.
Defined.
(** ** Indexes: [createTitleIndex], [createGenreYearIndex], [listIndexes] *)

Lemma createIndex_spec (k : sort_spec) (cat : catalogue) :
  match createIndex k cat with
  | Created n cat' =>
      n = index_name k ∧ k ∈ id_key :: cat'
      ∧ (cat' = cat ∨ ((k ∉ id_key :: cat)
                       ∧ (index_name k ∉ index_name <$> id_key :: cat)
                       ∧ ¬ full cat
                       ∧ cat' = cat ++ [k]))
      ∧ createIndex k cat' = Created n cat'
  | IndexConflict n =>
      n = index_name k ∧ (k ∉ id_key :: cat)
      ∧ ∃ k', k' ∈ id_key :: cat ∧ index_name k' = index_name k
  | TooManyIndexes => (k ∉ id_key :: cat) ∧ full cat
  | EmptyKey => k = []
  end.
Proof.
  unfold createIndex. destruct k as [|fd k]; [done|].
  case_bool_decide as Hin.
  - split; [done|]. split; [done|]. split; [by left|].
    by rewrite bool_decide_eq_true_2.
  - case_bool_decide as Hname.
    + split; [done|]. split; [done|].
      apply list_elem_of_fmap in Hname as (k' & Heq & Hk'). eauto.
    + case_bool_decide as Hfull; [done|]. split; [done|].
      assert (Hnew : fd :: k ∈ id_key :: cat ++ [fd :: k]).
      { right. apply elem_of_app. right. by left. }
      split; [done|]. split; [by right|].
      by rewrite bool_decide_eq_true_2.
Qed.

Lemma indexes_names (cat : catalogue) :
  name <$> indexes cat = index_name <$> id_key :: cat.
Proof. unfold indexes. rewrite <- list_fmap_compose. done. Qed.

Lemma indexes_keys (cat : catalogue) : key <$> indexes cat = id_key :: cat.
Proof.
  unfold indexes. rewrite <- list_fmap_compose.
  rewrite <- (list_fmap_id (id_key :: cat)) at 2. done.
Qed.

Lemma indexes_elem (cat : catalogue) (i : IndexDescription) :
  i ∈ indexes cat
  ↔ ∃ k, k ∈ id_key :: cat ∧ i = {| v := 2; key := k; name := index_name k |}.
Proof. unfold indexes. rewrite list_elem_of_fmap. naive_solver. Qed.
Lemma append_nil_l (s : string) : "" +:+ s = s.
Proof. reflexivity. Qed.

Lemma append_cons_l (a : Ascii.ascii) (s1 s2 : string) :
  String a s1 +:+ s2 = String a (s1 +:+ s2).
Proof. reflexivity. Qed.

Lemma underscores_app (s1 s2 : string) :
  underscores (s1 +:+ s2) = (underscores s1 + underscores s2)%nat.
Proof.
  induction s1 as [|a s1 IH]; [done|].
  rewrite append_cons_l. cbn [underscores]. rewrite IH. lia.
Qed.

(** A name splits at its first underscore in one way only. *)
Lemma split_at_underscore (f1 f2 r1 r2 : string) :
  underscores f1 = 0%nat → underscores f2 = 0%nat →
  f1 +:+ "_" +:+ r1 = f2 +:+ "_" +:+ r2 → f1 = f2 ∧ r1 = r2.
Proof.
  change ("_" +:+ r1) with (String (Ascii.ascii_of_nat 95) r1).
  change ("_" +:+ r2) with (String (Ascii.ascii_of_nat 95) r2).
  revert f2.
  induction f1 as [|a f1 IH]; intros [|b f2];
    rewrite ?append_nil_l, ?append_cons_l; cbn [underscores].
  - intros _ _ Heq. by injection Heq as ->.
  - intros _ Hb Heq. injection Heq as <- _.
    by rewrite bool_decide_eq_true_2 in Hb.
  - intros Ha _ Heq. injection Heq as -> _.
    by rewrite bool_decide_eq_true_2 in Ha.
  - intros Ha Hb Heq. injection Heq as -> Heq.
    destruct (IH f2) as [-> ->]; [lia|lia|done|done].
Qed.

Lemma derived_name_long (fd1 fd2 : string * direction) (k : sort_spec) :
  (2 ≤ underscores (derived_name (fd1 :: fd2 :: k)))%nat.
Proof.
  destruct fd1 as [f d]. cbn [derived_name].
  rewrite !underscores_app. cbn [underscores]. simpl. lia.
Qed.

Lemma title_name_unique (k : sort_spec) :
  index_name k = "title_1" → k = [("title", Asc)].
Proof.
  unfold index_name. case_bool_decide; [done|].
  destruct k as [|[f d] [|fd2 k]]; [done| |].
  - cbn [derived_name]. intros Heq.
    assert (Hu : underscores (f +:+ "_" +:+ direction_string d) = 1%nat)
      by by rewrite Heq.
    rewrite underscores_app in Hu.
    destruct (split_at_underscore f "title" (direction_string d) "1")
      as [-> Hd]; [simpl in Hu; lia|done|done|].
    by destruct d.
  - intros Heq. generalize (derived_name_long (f, d) fd2 k).
    rewrite Heq. simpl. lia.
Qed.

Lemma indexes_app (cat : catalogue) (k : sort_spec) :
  indexes (cat ++ [k])
  = indexes cat ++ [{| v := 2; key := k; name := index_name k |}].
Proof. unfold indexes. by rewrite app_comm_cons, fmap_app. Qed.

Lemma segments_nonempty (s : string) : segments s ≠ [].
Proof.
  destruct s as [|a s]; [done|]. cbn [segments].
  case_bool_decide; [done|]. by destruct (segments s).
Qed.

Lemma segments_app (s1 s2 : string) :
  segments (s1 +:+ "_" +:+ s2) = segments s1 ++ segments s2.
Proof.
  change ("_" +:+ s2) with (String (Ascii.ascii_of_nat 95) s2).
  induction s1 as [|a s1 IH]; rewrite ?append_nil_l, ?append_cons_l.
  - cbn [segments]. by rewrite bool_decide_eq_true_2.
  - cbn [segments]. rewrite IH. case_bool_decide; [done|].
    generalize (segments_nonempty s1). by destruct (segments s1).
Qed.

Lemma segments_inj (s1 s2 : string) : segments s1 = segments s2 → s1 = s2.
Proof.
  revert s2. induction s1 as [|a s1 IH]; intros [|b s2]; cbn [segments].
  - done.
  - generalize (segments_nonempty s2).
    case_bool_decide; by destruct (segments s2).
  - generalize (segments_nonempty s1).
    case_bool_decide; by destruct (segments s1).
  - generalize (segments_nonempty s1) (segments_nonempty s2) (IH s2).
    repeat case_bool_decide; destruct (segments s1), (segments s2);
      intros; simplify_eq; try done.
    + f_equal. auto.
    + f_equal. auto with f_equal.
Qed.

Lemma segments_direction (d : direction) :
  segments (direction_string d) = [direction_string d].
Proof. by destruct d. Qed.

Lemma derived_name_cons (f : string) (d : direction)
    (fd : string * direction) (k : sort_spec) :
  derived_name ((f, d) :: fd :: k)
  = f +:+ "_" +:+ direction_string d +:+ "_" +:+ derived_name (fd :: k).
Proof. reflexivity. Qed.

Lemma segments_derived_name (fd : string * direction) (k : sort_spec) :
  segments (derived_name (fd :: k))
  = concat ((λ fd, segments fd.1 ++ [direction_string fd.2]) <$> fd :: k).
Proof.
  revert fd. induction k as [|fd' k IH]; intros [f d].
  - cbn [derived_name fmap list_fmap concat].
    by rewrite segments_app, segments_direction, app_nil_r.
  - rewrite derived_name_cons, !segments_app, segments_direction, IH.
    rewrite (fmap_cons _ (f, d)). cbn [concat fst snd].
    by rewrite <- app_assoc.
Qed.

Lemma genre_year_name_keys (k : sort_spec) :
  index_name k = "genre_1_published_year_-1" →
  k = genre_year_key ∨ k = genre_year_rival.
Proof.
  unfold index_name. case_bool_decide; [done|].
  destruct k as [|[f d] k]; [done|]. intros Heq.
  apply (f_equal segments) in Heq. rewrite segments_derived_name in Heq.
  vm_compute (segments "genre_1_published_year_-1") in Heq.
  rewrite fmap_cons in Heq. cbn [concat fst snd] in Heq.
  revert Heq. generalize (segments_inj f).
  destruct (segments f) as [|x1 [|x2 [|x3 [|x4 [|x5 l]]]]]; intros Hf Heq;
    destruct d; simplify_eq/=.
  - destruct k as [|[f2 d2] k]; [done|]. left.
    rename select (concat _ = _) into Heq.
    rewrite fmap_cons in Heq. cbn [concat fst snd] in Heq.
    revert Heq. generalize (segments_inj f2).
    destruct (segments f2) as [|y1 [|y2 [|y3 l]]]; intros Hf2 Heq;
      destruct d2; simplify_eq/=.
    + destruct k as [|[f3 d3] k].
      * rewrite (Hf "genre"), (Hf2 "published_year"); done.
      * rename select (concat _ = _) into Heq.
        rewrite fmap_cons in Heq. cbn [concat fst snd] in Heq.
        generalize (segments_nonempty f3). revert Heq.
        by destruct (segments f3).
    + by destruct l.
    + by destruct l.
  - right. destruct k as [|[f3 d3] k].
    + by rewrite (Hf "genre_1_published_year").
    + rename select (concat _ = _) into Heq.
      rewrite fmap_cons in Heq. cbn [concat fst snd] in Heq.
      generalize (segments_nonempty f3). revert Heq.
      by destruct (segments f3).
  - by destruct l.
  - by destruct l.
Qed.
Lemma createIndex_cons (fd : string * direction) (k : sort_spec)
    (cat : catalogue) :
  createIndex (fd :: k) cat
  = if bool_decide (fd :: k ∈ id_key :: cat)
    then Created (index_name (fd :: k)) cat
    else if bool_decide (index_name (fd :: k) ∈ index_name <$> id_key :: cat)
         then IndexConflict (index_name (fd :: k))
         else if bool_decide (full cat) then TooManyIndexes
              else Created (index_name (fd :: k)) (cat ++ [fd :: k]).
Proof. reflexivity. Qed.

Lemma createTitleIndex_with (cat : catalogue) :
  createTitleIndex cat
  = if decide ((title_key ∉ cat) ∧ full cat) then TooManyIndexes
    else Created "title_1" (with_index title_key cat).
Proof.
  unfold createTitleIndex, with_index. fold title_key.
  unfold title_key at 1. rewrite createIndex_cons. fold title_key.
  assert (Hin : title_key ∈ id_key :: cat ↔ title_key ∈ cat).
  { rewrite elem_of_cons. naive_solver. }
  case_bool_decide as Hk.
  - rewrite decide_False; [done|]. intros [Hk' _]. by apply Hk', Hin.
  - rewrite bool_decide_eq_false_2.
    + case_bool_decide as Hfull.
      * rewrite decide_True; [done|]. split; [|done]. by rewrite <- Hin.
      * rewrite decide_False; [done|]. by intros [_ ?].
    + intros (k & Hname & Hk')%list_elem_of_fmap.
      symmetry in Hname. by apply title_name_unique in Hname as ->.
Qed.

Lemma createGenreYearIndex_with (cat : catalogue) :
  createGenreYearIndex cat
  = if decide ((genre_year_key ∉ cat) ∧ genre_year_rival ∈ cat)
    then IndexConflict "genre_1_published_year_-1"
    else if decide ((genre_year_key ∉ cat) ∧ full cat) then TooManyIndexes
    else Created "genre_1_published_year_-1" (with_index genre_year_key cat).
Proof.
  unfold createGenreYearIndex, with_index. fold genre_year_key.
  unfold genre_year_key at 1. rewrite createIndex_cons. fold genre_year_key.
  assert (Hin : genre_year_key ∈ id_key :: cat ↔ genre_year_key ∈ cat).
  { rewrite elem_of_cons. naive_solver. }
  case_bool_decide as Hk.
  - rewrite !decide_False; [done| |]; intros [Hk' _]; by apply Hk', Hin.
  - assert (Hk' : genre_year_key ∉ cat) by by rewrite <- Hin.
    destruct (decide ((genre_year_key ∉ cat) ∧ genre_year_rival ∈ cat))
      as [[_ Hr]|Hn].
    + rewrite bool_decide_eq_true_2; [done|].
      apply list_elem_of_fmap. exists genre_year_rival.
      split; [done|]. by right.
    + rewrite bool_decide_eq_false_2.
      * case_bool_decide as Hfull.
        -- by rewrite decide_True.
        -- rewrite decide_False; [done|]. by intros [_ ?].
      * intros (k & Hname & Hel)%list_elem_of_fmap. symmetry in Hname.
        apply genre_year_name_keys in Hname as [->| ->]; [done|].
        apply elem_of_cons in Hel as [?|Hel]; [done|]. by apply Hn.
Qed.

Lemma indexes_with_index (k : sort_spec) (cat : catalogue) :
  {| v := 2; key := k; name := index_name k |} ∈ indexes (with_index k cat)
  ∧ indexes cat `prefix_of` indexes (with_index k cat)
  ∧ with_index k (with_index k cat) = with_index k cat.
Proof.
  unfold with_index. case_bool_decide as Hin.
  - split; [|by rewrite bool_decide_eq_true_2].
    apply indexes_elem. by exists k.
  - assert (Hnew : k ∈ id_key :: cat ++ [k]).
    { right. apply elem_of_app. right. by left. }
    split; [|split].
    + apply indexes_elem. by exists k.
    + rewrite indexes_app. by apply prefix_app_r.
    + by rewrite bool_decide_eq_true_2.
Qed.

Lemma with_index_elem (k : sort_spec) (cat : catalogue) :
  k ∈ id_key :: with_index k cat.
Proof.
  unfold with_index. case_bool_decide; [done|].
  right. apply elem_of_app. right. by left.
Qed.

Lemma with_index_mono (k k' : sort_spec) (cat : catalogue) :
  k' ∈ id_key :: cat → k' ∈ id_key :: with_index k cat.
Proof.
  unfold with_index. case_bool_decide; [done|].
  intros [->|?]%elem_of_cons; [by left|].
  right. apply elem_of_app. by left.
Qed.

Lemma with_index_present (k : sort_spec) (cat : catalogue) :
  k ∈ id_key :: cat → with_index k cat = cat.
Proof. intros Hk. unfold with_index. by rewrite bool_decide_eq_true_2. Qed.

Lemma with_index_in (k : sort_spec) (cat : catalogue) :
  k ≠ id_key → k ∈ with_index k cat.
Proof.
  intros Hk. generalize (with_index_elem k cat).
  rewrite elem_of_cons. naive_solver.
Qed.

(** X18: on a collection with plain indexes, [createTitleIndex] is
    refused in one case only: the collection has its 64 indexes and none
    of them is on [{title: 1}]. In every other case it returns the name
    [title_1]; afterwards [listIndexes] shows the index on [{title: 1}]
    under that name, after the indexes it showed before, which are all
    kept; a second call returns the same name and changes nothing. No
    other key pattern has the name [title_1], so the name is never
    taken. *)
Theorem createTitleIndex_spec (cat : catalogue) :
  if decide ((title_key ∉ cat) ∧ full cat)
  then createTitleIndex cat = TooManyIndexes
  else ∃ cat',
    createTitleIndex cat = Created "title_1" cat'
    ∧ {| v := 2; key := title_key; name := "title_1" |} ∈ listIndexes cat'
    ∧ listIndexes cat `prefix_of` listIndexes cat'
    ∧ createTitleIndex cat' = Created "title_1" cat'.
Proof.
  rewrite createTitleIndex_with.
  destruct (decide ((title_key ∉ cat) ∧ full cat)) as [Hc|Hn]; [done|].
  exists (with_index title_key cat). split; [done|].
  destruct (indexes_with_index title_key cat) as (Hel & Hpre & Hidem).
  split; [done|]. split; [done|].
  rewrite createTitleIndex_with, Hidem. apply decide_False.
  intros [Hk _]. by apply Hk, with_index_in.
Qed.

(** X19: on a collection with plain indexes, [createGenreYearIndex]
    changes nothing and returns the name of its index when the compound
    index exists. When it does not, the call is refused in two cases: an
    index on the single field [genre_1_published_year], descending,
    exists, which has the same derived name; or the collection has its 64
    indexes. In every other case it returns the name
    [genre_1_published_year_-1]; afterwards [listIndexes] shows the
    compound index under that name after the indexes it showed before,
    and a second call changes nothing. *)
Theorem createGenreYearIndex_spec (cat : catalogue) :
  if decide ((genre_year_key ∉ cat) ∧ genre_year_rival ∈ cat)
  then createGenreYearIndex cat = IndexConflict "genre_1_published_year_-1"
  else if decide ((genre_year_key ∉ cat) ∧ full cat)
  then createGenreYearIndex cat = TooManyIndexes
  else ∃ cat',
    createGenreYearIndex cat = Created "genre_1_published_year_-1" cat'
    ∧ {| v := 2; key := genre_year_key;
         name := "genre_1_published_year_-1" |} ∈ listIndexes cat'
    ∧ listIndexes cat `prefix_of` listIndexes cat'
    ∧ createGenreYearIndex cat' = Created "genre_1_published_year_-1" cat'.
Proof.
  rewrite createGenreYearIndex_with.
  destruct (decide ((genre_year_key ∉ cat) ∧ genre_year_rival ∈ cat))
    as [Hc|Hn]; [done|].
  destruct (decide ((genre_year_key ∉ cat) ∧ full cat)) as [Hf|Hnf]; [done|].
  exists (with_index genre_year_key cat). split; [done|].
  destruct (indexes_with_index genre_year_key cat) as (Hel & Hpre & Hidem).
  split; [done|]. split; [done|].
  assert (Hk : genre_year_key ∈ with_index genre_year_key cat)
    by by apply with_index_in.
  rewrite createGenreYearIndex_with, Hidem.
  rewrite !decide_False; [done| |]; by intros [Hk' _].
Qed.

Lemma createIndex_names (k : sort_spec) (cat cat' : catalogue) (n : string) :
  createIndex k cat = Created n cat' →
  NoDup (index_name <$> id_key :: cat) →
  NoDup (index_name <$> id_key :: cat').
Proof.
  intros Hcr Hnd. generalize (createIndex_spec k cat). rewrite Hcr.
  intros (_ & _ & [->|(_ & Hname & _ & ->)] & _); [done|].
  rewrite app_comm_cons, fmap_app. apply NoDup_app. split; [done|].
  split; [|apply NoDup_singleton].
  intros x Hx [->|[]%elem_of_nil]%elem_of_cons. done.
Qed.

(** X20: when the names that [listIndexes] shows are distinct, they are
    still distinct after [createTitleIndex] or [createGenreYearIndex], and
    so are the key patterns. *)
Theorem index_names_distinct (cat : catalogue) :
  NoDup (name <$> listIndexes cat) →
  (∀ n cat', createTitleIndex cat = Created n cat' →
     NoDup (name <$> listIndexes cat') ∧ NoDup (key <$> listIndexes cat'))
  ∧ (∀ n cat', createGenreYearIndex cat = Created n cat' →
       NoDup (name <$> listIndexes cat') ∧ NoDup (key <$> listIndexes cat')).
Proof.
  unfold listIndexes, createTitleIndex, createGenreYearIndex.
  rewrite indexes_names. intros Hnd.
  split; intros n cat' Hcr; rewrite indexes_names, indexes_keys;
    apply createIndex_names in Hcr; try done;
    (split; [done|]); by apply NoDup_fmap_1 in Hcr.
Qed.

Lemma index_names_distinct_witness :
  (∀ n cat', createTitleIndex [] = Created n cat' →
     NoDup (name <$> listIndexes cat') ∧ NoDup (key <$> listIndexes cat'))
  ∧ (∀ n cat', createGenreYearIndex [] = Created n cat' →
       NoDup (name <$> listIndexes cat') ∧ NoDup (key <$> listIndexes cat')).
Proof.
  apply (index_names_distinct []). by apply (bool_decide_unpack _).
Defined.

(** ** The run of the script *)

Lemma createBook_fresh (r : doc) (c : collection) :
  r !! "_id" = None →
  createBook r c
  = Ok ({| acknowledged := true; insertedId := fresh_oid c |},
        c ++ [<["_id" := fresh_oid c]> r]).
Proof. intros Hr. unfold createBook, insertOne. by rewrite Hr. Qed.

Lemma copies_app (t : string) (c1 c2 : collection) :
  copies t (c1 ++ c2) = (copies t c1 + copies t c2)%nat.
Proof. unfold copies, find. by rewrite filter_app, length_app. Qed.

Lemma copies_cons (t : string) (d : doc) (c : collection) :
  copies t (d :: c)
  = ((if bool_decide (d !! "title" = Some (VStr t)) then 1 else 0)
     + copies t c)%nat.
Proof.
  unfold copies, find. rewrite filter_cons, matches_title.
  case_bool_decide.
  - by rewrite decide_True.
  - by rewrite decide_False by by intros [].
Qed.

Lemma updateBookPrice_Ok (t : string) (v : value) (c : collection) :
  ∃ ur c', updateBookPrice t v c = Ok (ur, c')
    ∧ ∀ t', copies t' c' = copies t' c.
Proof.
  destruct (readBook t c) as [d|] eqn:Hr.
  - apply readBook_split in Hr as (c1 & c2 & -> & Hd & Hc1).
    eexists _, _. split; [by apply updateBookPrice_first|].
    intros t'. rewrite !copies_app, !copies_cons.
    by rewrite lookup_insert_ne.
  - apply readBook_None, title_Forall in Hr.
    exists {| matchedCount := 0; modifiedCount := 0 |}, c.
    unfold updateBookPrice. by rewrite updateOne_no_match.
Qed.

Lemma copies_deleteBook (t t' : string) (c : collection) :
  copies t' (deleteBook t c).2
  = if bool_decide (t' = t) then pred (copies t' c) else copies t' c.
Proof.
  generalize (deleteBook_split t c).
  destruct (readBook t c) as [d|] eqn:Hr.
  - intros (c1 & c2 & -> & Hd & Hc1 & ->). cbn [snd].
    rewrite !copies_app, copies_cons, Hd.
    case_bool_decide as Ht.
    + subst t'. rewrite bool_decide_eq_true_2 by done. lia.
    + rewrite bool_decide_eq_false_2; [done|]. congruence.
  - intros ->. cbn [snd]. case_bool_decide as Ht; [|done]. subst t'.
    unfold copies. apply readBook_None, title_Forall in Hr.
    by rewrite (proj2 (find_nil_findOne _ c) (proj2 (findOne_None _ c) Hr)).
Qed.

Lemma getAveragePriceByGenre_Ok (c : collection) :
  ∃ out, getAveragePriceByGenre c = Ok out.
Proof. destruct (average_groups c) as (gs & -> & _). by eexists. Qed.

Lemma getMostExpensiveByGenre_Ok (c : collection) :
  ∃ out, getMostExpensiveByGenre c = Ok out.
Proof.
  unfold getMostExpensiveByGenre. cbn [aggregate run_stage].
  cbn [mbind res_bind]. by eexists.
Qed.

Lemma getBooksByDecade_cases (c : collection) :
  if decide (Exists bad_year c)
  then getBooksByDecade c = Err (TypeMismatch "$mod")
  else ∃ out, getBooksByDecade c = Ok out.
Proof.
  rewrite getBooksByDecade_unfold, project_decades.
  destruct (decide (Exists bad_year c)); [done|]. by eexists.
Qed.

Lemma script_after_writes (c c1 c2 c3 : collection) (cat : catalogue)
    (ir : InsertOneResult) (ur : UpdateResult) (dr : DeleteResult) :
  createBook the_silent_patient c = Ok (ir, c1) →
  updateBookPrice "The Hobbit" (VNum (decimal 1599 2)) c1 = Ok (ur, c2) →
  deleteBook "Moby Dick" c2 = (dr, c3) →
  main c cat = run_outcome c3 cat.
Proof.
  intros Hcr Hup Hdel. unfold main, run_outcome. rewrite Hcr, Hup, Hdel.
  destruct (getAveragePriceByGenre_Ok c3) as [o1 ->].
  generalize (getBooksByDecade_cases c3).
  destruct (decide (Exists bad_year c3)) as [Hbad|Hok]; [by intros ->|].
  intros [o2 ->]. destruct (getMostExpensiveByGenre_Ok c3) as [o3 ->].
  rewrite createTitleIndex_with.
  destruct (decide ((title_key ∉ cat) ∧ full cat)) as [Ht|Ht]; [done|].
  rewrite createGenreYearIndex_with.
  set (cat1 := with_index title_key cat).
  assert (Hk : genre_year_key ∈ cat1 ↔ genre_year_key ∈ cat).
  { unfold cat1, with_index. case_bool_decide; [done|].
    rewrite elem_of_app, list_elem_of_singleton.
    unfold genre_year_key, title_key. naive_solver. }
  assert (Hr : genre_year_rival ∈ cat1 ↔ genre_year_rival ∈ cat).
  { unfold cat1, with_index. case_bool_decide; [done|].
    rewrite elem_of_app, list_elem_of_singleton.
    unfold genre_year_rival, title_key. naive_solver. }
  destruct (decide ((genre_year_key ∉ cat1) ∧ genre_year_rival ∈ cat1))
    as [[H1 H2]|Hn1].
  { rewrite decide_True; [done|]. rewrite <- Hk, <- Hr. auto. }
  destruct (decide ((genre_year_key ∉ cat1) ∧ full cat1)) as [[H1 H2]|Hn2].
  { rewrite decide_True; [done|]. rewrite <- Hk. auto. }
  rewrite decide_False; [done|]. rewrite <- Hk, <- Hr. tauto.
Qed.

Lemma script_outcome_eq (c : collection) (cat : catalogue) :
  ∃ c3, main c cat = run_outcome c3 cat.
Proof.
  destruct (updateBookPrice_Ok "The Hobbit" (VNum (decimal 1599 2))
              (c ++ [<["_id" := fresh_oid c]> the_silent_patient]))
    as (ur & c2 & Hup & _).
  destruct (deleteBook "Moby Dick" c2) as [dr c3] eqn:Hdel.
  exists c3. eapply script_after_writes; [|done..].
  by apply createBook_fresh.
Qed.

(** X21: the run of the script at the end of [queries.js], from any
    collection and any catalogue of plain indexes. The three writes are
    never refused, and of the calls after them only three can be:
    [getBooksByDecade], when a record left by the writes has a year that
    [$mod] refuses, and then no index is created; [createTitleIndex],
    when the collection has its 64 indexes and none on the title; and
    [createGenreYearIndex], when its index is missing and either the name
    of the index is taken or the collection has its 64 indexes, and then
    the title index stays created. Otherwise the run completes with both
    indexes in the catalogue. In each case the collection is the one the
    three writes left. *)
Theorem main_outcome (c : collection) (cat : catalogue) :
  ∃ ir c1 ur c2 dr c3,
    createBook the_silent_patient c = Ok (ir, c1)
    ∧ updateBookPrice "The Hobbit" (VNum (decimal 1599 2)) c1 = Ok (ur, c2)
    ∧ deleteBook "Moby Dick" c2 = (dr, c3)
    ∧ main c cat
      = if decide (Exists bad_year c3)
        then Rejected "getBooksByDecade" c3 cat
        else if decide ((title_key ∉ cat) ∧ full cat)
        then Rejected "createTitleIndex" c3 cat
        else if decide ((genre_year_key ∉ cat)
                        ∧ (genre_year_rival ∈ cat
                           ∨ full (with_index title_key cat)))
        then Rejected "createGenreYearIndex" c3 (with_index title_key cat)
        else Completed c3
               (with_index genre_year_key (with_index title_key cat)).
Proof.
  assert (Hcr := createBook_fresh the_silent_patient c eq_refl).
  destruct (updateBookPrice_Ok "The Hobbit" (VNum (decimal 1599 2))
              (c ++ [<["_id" := fresh_oid c]> the_silent_patient]))
    as (ur & c2 & Hup & _).
  destruct (deleteBook "Moby Dick" c2) as [dr c3] eqn:Hdel.
  eexists _, _, ur, c2, dr, c3. split; [exact Hcr|].
  split; [done|]. split; [done|].
  by eapply script_after_writes.
Qed.

(** X22: what a run of the script does to the number of records of each
    title, completed or not: one more record titled The Silent Patient
    (every run inserts one), one record titled Moby Dick fewer when there
    was one, and as many as before of every other title. *)
Theorem main_copies (c : collection) (cat : catalogue) (t : string) :
  copies t (collection_of (main c cat))
  = if bool_decide (t = "The Silent Patient") then S (copies t c)
    else if bool_decide (t = "Moby Dick") then pred (copies t c)
    else copies t c.
Proof.
  assert (Hc : ∃ ur c2,
    updateBookPrice "The Hobbit" (VNum (decimal 1599 2))
      (c ++ [<["_id" := fresh_oid c]> the_silent_patient]) = Ok (ur, c2)
    ∧ (∀ t', copies t' c2
             = copies t' (c ++ [<["_id" := fresh_oid c]> the_silent_patient]))
    ∧ collection_of (main c cat) = (deleteBook "Moby Dick" c2).2).
  { destruct (updateBookPrice_Ok "The Hobbit" (VNum (decimal 1599 2))
                (c ++ [<["_id" := fresh_oid c]> the_silent_patient]))
      as (ur & c2 & Hup & Hcp).
    exists ur, c2. split; [done|]. split; [done|].
    unfold main. rewrite createBook_fresh by done. rewrite Hup.
    destruct (deleteBook "Moby Dick" c2) as [dr c3]. cbn [snd].
    destruct (getAveragePriceByGenre c3); [|done].
    destruct (getBooksByDecade c3); [|done].
    destruct (getMostExpensiveByGenre c3); [|done].
    destruct (createTitleIndex cat); [|done..].
    by destruct (createGenreYearIndex _). }
  destruct Hc as (ur & c2 & _ & Hcp & ->).
  rewrite copies_deleteBook, Hcp, copies_app, copies_cons.
  rewrite lookup_insert_ne by done.
  replace (the_silent_patient !! "title")
    with (Some (VStr "The Silent Patient")) by done.
  change (copies t []) with 0%nat.
  repeat case_bool_decide; simplify_eq; lia.
Qed.
(** X23: after a run of the script that completes, [listIndexes] shows the
    index on the title and the compound index on genre and year, after
    the indexes that were there before the run; and every later run, from
    any collection, leaves this catalogue as it is. *)
Theorem main_indexes_settle (c c3 : collection) (cat cat2 : catalogue) :
  main c cat = Completed c3 cat2 →
  {| v := 2; key := title_key; name := "title_1" |} ∈ listIndexes cat2
  ∧ {| v := 2; key := genre_year_key;
       name := "genre_1_published_year_-1" |} ∈ listIndexes cat2
  ∧ listIndexes cat `prefix_of` listIndexes cat2
  ∧ ∀ c', catalogue_of (main c' cat2) = cat2.
Proof.
  destruct (script_outcome_eq c cat) as (c3' & Hmain). rewrite Hmain.
  unfold run_outcome.
  destruct (decide (Exists bad_year c3')); [done|].
  destruct (decide ((title_key ∉ cat) ∧ full cat)); [done|].
  destruct (decide ((genre_year_key ∉ cat) ∧ _)); [done|].
  intros [= _ <-].
  set (cat1 := with_index title_key cat).
  assert (Ht : title_key ∈ id_key :: with_index genre_year_key cat1)
    by apply with_index_mono, with_index_elem.
  assert (Hg : genre_year_key ∈ id_key :: with_index genre_year_key cat1)
    by apply with_index_elem.
  split; [|split; [|split]].
  - apply indexes_elem. by exists title_key.
  - apply indexes_elem. by exists genre_year_key.
  - unfold listIndexes.
    destruct (indexes_with_index title_key cat) as (_ & H1 & _).
    destruct (indexes_with_index genre_year_key cat1) as (_ & H2 & _).
    by etrans.
  - intros c'. destruct (script_outcome_eq c' (with_index genre_year_key cat1))
      as (c3'' & ->).
    unfold run_outcome.
    rewrite (with_index_present title_key) by done.
    rewrite (with_index_present genre_year_key
               (with_index genre_year_key cat1)) by done.
    destruct (decide (Exists bad_year c3'')); [done|].
    assert (Ht' : title_key ∈ with_index genre_year_key cat1)
      by by apply elem_of_cons in Ht as [?|?].
    assert (Hg' : genre_year_key ∈ with_index genre_year_key cat1)
      by by apply elem_of_cons in Hg as [?|?].
    rewrite !decide_False; [done| |]; by intros [? _].
Qed.

Lemma main_indexes_settle_witness :
  {| v := 2; key := title_key; name := "title_1" |}
    ∈ listIndexes (catalogue_of (main books []))
  ∧ {| v := 2; key := genre_year_key;
       name := "genre_1_published_year_-1" |}
      ∈ listIndexes (catalogue_of (main books []))
  ∧ listIndexes [] `prefix_of` listIndexes (catalogue_of (main books []))
  ∧ ∀ c', catalogue_of (main c' (catalogue_of (main books [])))
          = catalogue_of (main books []).
Proof.
  apply (main_indexes_settle books (collection_of (main books []))).
  vm_compute. reflexivity.
Defined.

(** ** The indexes and the script on the sample collection *)

Example indexes_after_the_script :
  listIndexes (catalogue_of (main books []))
  = [{| v := 2; key := [("_id", Asc)]; name := "_id_" |};
     {| v := 2; key := [("title", Asc)]; name := "title_1" |};
     {| v := 2; key := [("genre", Asc); ("published_year", Desc)];
        name := "genre_1_published_year_-1" |}].
Proof. reflexivity. Qed.

Example genre_year_index_refused :
  createGenreYearIndex [genre_year_rival]
  = IndexConflict "genre_1_published_year_-1".
Proof. reflexivity. Qed.

Example dystopian_books :
  rows ["_id"; "title"; "author"; "price"; "genre"]
       (Ok (findBooksByGenre "Dystopian" [] books))
  = [[Missing; Str "1984"; Str "George Orwell";
      Num (this (decimal 1099 2)); Missing];
     [Missing; Str "Brave New World"; Str "Aldous Huxley"; Num (23 # 2);
      Missing]].
Proof. reflexivity. Qed.

(** Once the script has created its indexes, the same read returns the
    books of a genre by year, the latest first. *)
Example dystopian_books_by_year :
  rows ["title"]
       (Ok (findBooksByGenre "Dystopian" []
              [stored 2 brave_new_world; stored 1 nineteen_eighty_four]))
  = [[Str "Brave New World"]; [Str "1984"]]
  ∧ rows ["title"]
         (Ok (findBooksByGenre "Dystopian" [title_key; genre_year_key]
                [stored 2 brave_new_world; stored 1 nineteen_eighty_four]))
    = [[Str "1984"]; [Str "Brave New World"]].
Proof. split; reflexivity. Qed.

Example title_index_refused :
  createTitleIndex
    ((fun n => [(String (Ascii.ascii_of_nat (48 + n)) "", Asc)])
     <$> seq 0 63)
  = TooManyIndexes.
Proof. reflexivity. Qed.

Example decade_of_a_string_year :
  getBooksByDecade
    (books ++ [<["published_year" := VStr "1960"]> (stored 5 the_hobbit)])
  = Err (TypeMismatch "$mod").
Proof. reflexivity. Qed.
